(** * urql-exchange-graphcache: layered key-value map, schema predicates, store

    A shallow embedding of
    - [src/helpers/map.ts], the layered map (module [LayeredMap]),
    - [src/ast/schemaPredicates.ts], the class [SchemaPredicates]
      (module [Schema]),
    - the class [Store] and the types of entities and links it works on
      (module [StoreModel]),
    together with the properties the specification states about them.

    Conventions of the embedding.
    - A JavaScript [Map<string, V>] and a null-prototype dictionary are finite
      maps ([gmap]); only [get], [has], [set] and [delete] are used by the
      code, so insertion order plays no role.
    - [undefined] is [None]: a slot of type [T | undefined] is an [option T],
      and "key present with value [undefined]" is a lookup answering
      [Some None].
    - Layer ids ([optimisticKey : number]) are operation keys, modelled as
      integers; the only number that is falsy among them is [0].
    - A call that can raise a [TypeError] returns a [completion]. *)

From stdpp Require Import gmap strings list fin_maps sorting pretty.

Local Open Scope Z_scope.

(** The outcome of a JavaScript call: a returned value or a thrown error. *)
Inductive completion (A : Type) : Type :=
  | Return (a : A)
  | Throw.
Arguments Return {A} a.
Arguments Throw {A}.

Definition returns {A} (c : completion A) : Prop := ∃ a, c = Return a.

(* ===================================================================== *)
(** * src/helpers/map.ts *)
(* ===================================================================== *)

Module LayeredMap.

Section KVMap.
Context {T : Type}.

(** [type Data<T> = Map<string, T>] and
    [type OptimisticData<T> = { [optimisticKey: number]: Data<T | undefined> }]. *)
Record KVMap : Type := mkKVMap {
  optimistic : gmap Z (gmap string (option T));
  base : gmap string T;
  keys : list Z;
}.

(** Modelled from the spec: [makeDict] lives in [src/helpers/dict.ts], which
    is not among the sources; [make()] "returns an empty layered container
    (empty base, empty layer stack)", so the dictionary it starts from has
    no entry. *)
Definition makeDict : gmap Z (gmap string (option T)) := ∅.

Definition make : KVMap :=
  {| optimistic := makeDict; base := ∅; keys := [] |}.

(** Truthiness of a number, as tested by [if (optimisticKey)]. *)
Definition truthy (n : Z) : bool := negb (n =? 0).

(** The inner [if] of [set]: open the overlay when the dictionary has none
    under [optimisticKey], and [unshift] the id onto [keys]. *)
Definition open_layer (map : KVMap) (optimisticKey : Z) : KVMap :=
  match optimistic map !! optimisticKey with
  | None =>
      {| optimistic := <[optimisticKey := ∅]> (optimistic map);
         base := base map;
         keys := optimisticKey :: keys map |}
  | Some _ => map
  end.

(** [map.optimistic[optimisticKey].set(key, value)]. *)
Definition overlay_set (map : KVMap) (optimisticKey : Z)
    (key : string) (value : option T) : KVMap :=
  {| optimistic := alter (insert key value) optimisticKey (optimistic map);
     base := base map;
     keys := keys map |}.

(** The two [else] branches of [set]: [map.base.delete(key)] for
    [undefined], [map.base.set(key, value)] otherwise. *)
Definition base_set (map : KVMap) (key : string) (value : option T) : KVMap :=
  match value with
  | None =>
      {| optimistic := optimistic map;
         base := delete key (base map);
         keys := keys map |}
  | Some v =>
      {| optimistic := optimistic map;
         base := <[key := v]> (base map);
         keys := keys map |}
  end.

Definition set (map : KVMap) (key : string) (value : option T)
    (optimisticKey : option Z) : KVMap :=
  match optimisticKey with
  | Some ok =>
      if truthy ok then overlay_set (open_layer map ok) ok key value
      else base_set map key value
  | None => base_set map key value
  end.

(** [Array.prototype.indexOf]: the first position holding [x], or [-1]. *)
Fixpoint indexOf (l : list Z) (x : Z) : Z :=
  match l with
  | [] => -1
  | y :: l' =>
      if decide (y = x) then 0
      else if indexOf l' x <? 0 then -1 else indexOf l' x + 1
  end.

(** [keys.splice(index, 1)] for an index within the array. *)
Definition splice1 (l : list Z) (index : Z) : list Z :=
  delete (Z.to_nat index) l.

Definition clear (map : KVMap) (optimisticKey : Z) : KVMap :=
  let index := indexOf (keys map) optimisticKey in
  if -1 <? index then
    {| optimistic := delete optimisticKey (optimistic map);
       base := base map;
       keys := splice1 (keys map) index |}
  else map.

(** The [for] loop of [get] over [map.keys], followed by the read of
    [base].  [optimistic.has(key)] on a missing overlay is a [TypeError]. *)
Fixpoint scan (o : gmap Z (gmap string (option T))) (ks : list Z)
    (key : string) (fromBase : option T) : completion (option T) :=
  match ks with
  | [] => Return fromBase
  | k :: ks' =>
      match o !! k with
      | None => Throw
      | Some layer =>
          match layer !! key with
          | Some v => Return v
          | None => scan o ks' key fromBase
          end
      end
  end.

Definition get (map : KVMap) (key : string) : completion (option T) :=
  scan (optimistic map) (keys map) key (base map !! key).

(** ** Histories of calls *)

Inductive call : Type :=
  | CallSet (key : string) (value : option T) (optimisticKey : option Z)
  | CallClear (optimisticKey : Z).

Definition exec (map : KVMap) (c : call) : KVMap :=
  match c with
  | CallSet key value ok => set map key value ok
  | CallClear ok => clear map ok
  end.

Definition run (cs : list call) : KVMap := foldl exec make cs.

Inductive reachable : KVMap → Prop :=
  | reachable_make : reachable make
  | reachable_set map key value ok :
      reachable map → reachable (set map key value ok)
  | reachable_clear map ok :
      reachable map → reachable (clear map ok).

(** The time at which each layer that is open at the end of a history was
    opened, read off the history alone: a [set] on a non-zero id that is
    not open at that time opens it at that step, a [clear] closes it. *)
Definition stamp (t : gmap Z nat) (n : nat) (c : call) : gmap Z nat :=
  match c with
  | CallSet _ _ (Some ok) =>
      if truthy ok then
        match t !! ok with None => <[ok := n]> t | Some _ => t end
      else t
  | CallSet _ _ None => t
  | CallClear ok => delete ok t
  end.

Fixpoint stamps_from (t : gmap Z nat) (n : nat) (cs : list call) : gmap Z nat :=
  match cs with
  | [] => t
  | c :: cs' => stamps_from (stamp t n c) (S n) cs'
  end.

Definition opened_at (cs : list call) : gmap Z nat := stamps_from ∅ 0%nat cs.

(** ** The representation invariant *)

Definition is_open (map : KVMap) (L : Z) : Prop := is_Some (optimistic map !! L).

Record wf (map : KVMap) : Prop := mkWf {
  wf_nodup : NoDup (keys map);
  wf_open : ∀ L, L ∈ keys map ↔ is_open map L;
}.

(** The overlay of layer [L] holds [key] (possibly as a tombstone). *)
Definition holds (map : KVMap) (L : Z) (key : string) : Prop :=
  ∃ layer, optimistic map !! L = Some layer ∧ is_Some (layer !! key).

(** The overlay of [L] in the dictionary [o] exists and lacks [key]: the
    loop of [get] moves on to the next id. *)
Definition misses (o : gmap Z (gmap string (option T))) (key : string)
    (L : Z) : Prop :=
  ∃ layer, o !! L = Some layer ∧ layer !! key = None.

(** Layer [0] is never open: [if (optimisticKey)] sends it to [base]. *)
Definition zero_closed (map : KVMap) : Prop := optimistic map !! 0 = None.

(** [newer t L L']: by the opening times [t], layer [L] was opened after
    layer [L']. *)
Definition newer (t : gmap Z nat) (L L' : Z) : Prop :=
  ∃ a b, t !! L = Some a ∧ t !! L' = Some b ∧ (b < a)%nat.

(** What ties a container to the opening times of its history, [n] steps
    long: the ids in [keys] are the ones with an opening time, and they
    are listed newest first. *)
Record tracks (t : gmap Z nat) (n : nat) (map : KVMap) : Prop := mkTracks {
  tracks_dom : ∀ L, L ∈ keys map ↔ is_Some (t !! L);
  tracks_past : ∀ L a, t !! L = Some a → (a < n)%nat;
  tracks_order : StronglySorted (newer t) (keys map);
}.

(** The optimistic round trip of the specification: write [v1] to [base],
    then [v2] to layer [L]; read; roll [L] back; read again. *)
Definition isolated (map : KVMap) (key : string) (v1 v2 : option T)
    (L : Z) : Prop :=
  let written := set (set map key v1 None) key v2 (Some L) in
  get written key = Return v2 ∧ get (clear written L) key = Return v1.

(** The overlay half of the description of [set]: the write into layer [L]
    lands in the overlay of [L] and [base] is left alone. *)
Definition writes_layer (map : KVMap) (key : string) (value : option T)
    (L : Z) : Prop :=
  (∃ layer, optimistic (set map key value (Some L)) !! L = Some layer ∧
            layer !! key = Some value)
  ∧ base (set map key value (Some L)) = base map.

(** A run of writes into one layer, in the order given: what a write scoped
    to the optimistic key [L] does to the container. *)
Definition set_all (map : KVMap) (writes : list (string * option T))
    (L : Z) : KVMap :=
  foldl (λ m w, set m w.1 w.2 (Some L)) map writes.

End KVMap.

Arguments KVMap T : clear implicits.
Arguments call T : clear implicits.

End LayeredMap.

(* ===================================================================== *)
(** * src/ast/schemaPredicates.ts *)
(* ===================================================================== *)

Module Schema.

(** [type RootField = 'query' | 'mutation' | 'subscription']. *)
Inductive RootField : Type := OpQuery | OpMutation | OpSubscription.

(** ** The part of the graphql AST that the predicates read *)

Inductive TypeNode : Type :=
  | NamedType (name : string)
  | ListType (type : TypeNode)
  | NonNullType (type : TypeNode).

Inductive Kind : Type :=
  | NAMED_TYPE | LIST_TYPE | NON_NULL_TYPE
  | OBJECT_TYPE_DEFINITION | OTHER_DEFINITION.

Definition Kind_eqb (a b : Kind) : bool :=
  match a, b with
  | NAMED_TYPE, NAMED_TYPE | LIST_TYPE, LIST_TYPE
  | NON_NULL_TYPE, NON_NULL_TYPE
  | OBJECT_TYPE_DEFINITION, OBJECT_TYPE_DEFINITION
  | OTHER_DEFINITION, OTHER_DEFINITION => true
  | _, _ => false
  end.

Definition type_kind (t : TypeNode) : Kind :=
  match t with
  | NamedType _ => NAMED_TYPE
  | ListType _ => LIST_TYPE
  | NonNullType _ => NON_NULL_TYPE
  end.

(** [FieldDefinitionNode]: [name.value] and [type]. *)
Record FieldDefinitionNode : Type := mkField {
  field_name : string;
  field_type : TypeNode;
}.

(** A member of [DocumentNode.definitions].  An [ObjectTypeDefinitionNode]
    has a name and optional [fields]; every other kind of definition
    (interface, union, scalar, enum, input object, schema, directive) is
    an [OtherDefinition], whose name the predicates never read. *)
Inductive DefinitionNode : Type :=
  | ObjectTypeDefinition (name : string)
      (fields : option (list FieldDefinitionNode))
  | OtherDefinition (name : option string)
      (fields : option (list FieldDefinitionNode)).

Definition node_kind (node : DefinitionNode) : Kind :=
  match node with
  | ObjectTypeDefinition _ _ => OBJECT_TYPE_DEFINITION
  | OtherDefinition _ _ => OTHER_DEFINITION
  end.

Definition node_fields (node : DefinitionNode)
    : option (list FieldDefinitionNode) :=
  match node with
  | ObjectTypeDefinition _ fields => fields
  | OtherDefinition _ fields => fields
  end.

Record DocumentNode : Type := mkDocument {
  definitions : list DefinitionNode;
}.

(** ** The introspection result given to the constructor *)

Record NamedTypeRef : Type := mkRef { name : string }.

Record IntrospectionType : Type := mkType {
  kind : string;
  type_name : string;
  possibleTypes : option (list NamedTypeRef);
}.

Record IntrospectionSchema : Type := mkSchema {
  types : list IntrospectionType;
  queryType : option NamedTypeRef;
  mutationType : option NamedTypeRef;
  subscriptionType : option NamedTypeRef;
}.

Record IntrospectionQuery : Type := mkIntrospection {
  __schema : IntrospectionSchema;
}.

(** [Kind.UNION_TYPE_DEFINITION] and [Kind.INTERFACE_TYPE_DEFINITION] of the
    graphql package, compared with the introspection type's [kind]. *)
Definition UNION_TYPE_DEFINITION : string := "UnionTypeDefinition".
Definition INTERFACE_TYPE_DEFINITION : string := "InterfaceTypeDefinition".

(** ** The class *)

(** A root field holds a type name, or nothing ([null]/[undefined]) when
    the [&&] of the constructor stopped at a missing type. *)
Record RootFields : Type := mkRootFields {
  query : option string;
  mutation : option string;
  subscription : option string;
}.

Record SchemaPredicates : Type := mkSchemaPredicates {
  schema : option DocumentNode;
  fragTypes : option (gmap string (list string));
  rootFields : RootFields;
}.

Definition bind {A B} (c : completion A) (f : A → completion B)
    : completion B :=
  match c with
  | Return a => f a
  | Throw => Throw
  end.

(** One iteration of [schema.__schema.types.forEach]; [possibleTypes.map]
    on a type without [possibleTypes] is a [TypeError]. *)
Definition collect_type (acc : completion (gmap string (list string)))
    (type : IntrospectionType) : completion (gmap string (list string)) :=
  bind acc (λ frag,
    if (String.eqb (kind type) UNION_TYPE_DEFINITION
        || String.eqb (kind type) INTERFACE_TYPE_DEFINITION)%bool
    then
      match possibleTypes type with
      | Some possible => Return (<[type_name type := map name possible]> frag)
      | None => Throw
      end
    else Return frag).

(** [queryType && queryType.name]. *)
Definition and_name (t : option NamedTypeRef) : option string :=
  match t with
  | Some r => Some (name r)
  | None => None
  end.

Section Constructor.
(** [parse(printSchema(buildClientSchema(schema)))], three functions of
    the graphql package; they may reject the introspection result. *)
Variable parseSchema : IntrospectionQuery → completion DocumentNode.

Definition new_SchemaPredicates (schema : option IntrospectionQuery)
    : completion SchemaPredicates :=
  match schema with
  | Some s =>
      bind (parseSchema s) (λ doc,
      bind (foldl collect_type (Return ∅) (types (__schema s))) (λ frag,
      Return
        {| schema := Some doc;
           fragTypes := Some frag;
           rootFields :=
             {| query := and_name (queryType (__schema s));
                mutation := and_name (mutationType (__schema s));
                subscription := and_name (subscriptionType (__schema s)) |}
        |}))
  | None =>
      Return
        {| schema := None;
           fragTypes := None;
           rootFields :=
             {| query := Some "Query";
                mutation := Some "Mutation";
                subscription := Some "Subscription" |} |}
  end.
End Constructor.

Definition getRootKey (this : SchemaPredicates) (name : RootField)
    : option string :=
  match name with
  | OpQuery => query (rootFields this)
  | OpMutation => mutation (rootFields this)
  | OpSubscription => subscription (rootFields this)
  end.

(** The predicate of [definitions.find]. *)
Definition is_object_named (typename : string) (node : DefinitionNode) : bool :=
  match node with
  | ObjectTypeDefinition n _ => String.eqb n typename
  | OtherDefinition _ _ => false
  end.

Definition is_field_named (fieldName : string) (node : FieldDefinitionNode)
    : bool :=
  String.eqb (field_name node) fieldName.

Definition isFieldNullable (this : SchemaPredicates)
    (typename fieldName : string) : bool :=
  match schema this with
  | None => true
  | Some doc =>
      match List.find (is_object_named typename) (definitions doc) with
      | None => true
      | Some objectTypeNode =>
          match List.find (is_field_named fieldName)
                  (default [] (node_fields objectTypeNode)) with
          | None => true
          | Some field =>
              negb (Kind_eqb (type_kind (field_type field)) NON_NULL_TYPE)
          end
      end
  end.

(** The default names of the three root operation types. *)
Definition conventional (name : RootField) : string :=
  match name with
  | OpQuery => "Query"
  | OpMutation => "Mutation"
  | OpSubscription => "Subscription"
  end.

(** What the introspection result declares for an operation kind. *)
Definition declared (s : IntrospectionQuery) (name : RootField)
    : option NamedTypeRef :=
  match name with
  | OpQuery => queryType (__schema s)
  | OpMutation => mutationType (__schema s)
  | OpSubscription => subscriptionType (__schema s)
  end.

(** ** Reading a schema document *)

(** [node] is the object type definition of [typename] in the document: an
    object type definition of that name, the first one should the document
    hold several. *)
Definition defines (doc : DocumentNode) (typename : string)
    (node : DefinitionNode) : Prop :=
  ∃ before after fields,
    definitions doc = before ++ node :: after ∧
    node = ObjectTypeDefinition typename fields ∧
    ∀ fields', ObjectTypeDefinition typename fields' ∉ before.

(** [field] is the field that [fields.find] picks for [fieldName]. *)
Definition declares (node : DefinitionNode) (fieldName : string)
    (field : FieldDefinitionNode) : Prop :=
  ∃ before after,
    default [] (node_fields node) = before ++ field :: after ∧
    field_name field = fieldName ∧
    ∀ f, f ∈ before → field_name f ≠ fieldName.

Definition non_null (field : FieldDefinitionNode) : Prop :=
  ∃ type, field_type field = NonNullType type.

(** A document as [parse] of a printed schema gives it: one object type
    definition per name, one field per name in each of them. *)
Definition unique_names (doc : DocumentNode) : Prop :=
  (∀ typename fields1 fields2,
     ObjectTypeDefinition typename fields1 ∈ definitions doc →
     ObjectTypeDefinition typename fields2 ∈ definitions doc →
     fields1 = fields2)
  ∧ (∀ node f1 f2, node ∈ definitions doc →
       f1 ∈ default [] (node_fields node) →
       f2 ∈ default [] (node_fields node) →
       field_name f1 = field_name f2 → f1 = f2).

(** [name.value] of a definition, when it has a name. *)
Definition node_name (node : DefinitionNode) : option string :=
  match node with
  | ObjectTypeDefinition name _ => Some name
  | OtherDefinition name _ => name
  end.

(** The schema defines [typename], as any kind of type (object, interface,
    input object), with a field [fieldName] of a non-null type. *)
Definition defines_non_null (doc : DocumentNode)
    (typename fieldName : string) : Prop :=
  ∃ node field,
    node ∈ definitions doc ∧ node_name node = Some typename ∧
    field ∈ default [] (node_fields node) ∧
    field_name field = fieldName ∧ non_null field.

(** The root key as the specification words it: the declared name, and the
    conventional name whenever none is set. *)
Definition root_key_specified (schema : option IntrospectionQuery)
    (name : RootField) : string :=
  match schema with
  | Some s =>
      match declared s name with
      | Some type => Schema.name type
      | None => conventional name
      end
  | None => conventional name
  end.

(** ** A schema without mutations or subscriptions *)

Definition query_only : IntrospectionQuery :=
  {| __schema :=
       {| types := [ {| kind := "OBJECT"; type_name := "Query";
                        possibleTypes := None |} ];
          queryType := Some {| name := "Query" |};
          mutationType := None;
          subscriptionType := None |} |}.

Definition query_only_document : DocumentNode :=
  {| definitions :=
       [ OtherDefinition None None;
         OtherDefinition (Some "Node")
           (Some [ {| field_name := "id";
                      field_type := NonNullType (NamedType "ID") |} ]);
         ObjectTypeDefinition "Query"
           (Some [ {| field_name := "todos";
                      field_type := ListType (NamedType "Todo") |};
                   {| field_name := "version";
                      field_type := NonNullType (NamedType "Int") |} ]) ] |}.

Definition parse_query_only (s : IntrospectionQuery)
    : completion DocumentNode :=
  Return query_only_document.

(** What the constructor builds from [query_only]. *)
Definition query_only_predicates : SchemaPredicates :=
  {| schema := Some query_only_document;
     fragTypes := Some ∅;
     rootFields := {| query := Some "Query";
                      mutation := None;
                      subscription := None |} |}.

(** ** The membership table of the constructor *)

(** The test that the constructor's [forEach] makes on a type's [kind]. *)
Definition is_abstract (type : IntrospectionType) : bool :=
  (String.eqb (kind type) UNION_TYPE_DEFINITION
   || String.eqb (kind type) INTERFACE_TYPE_DEFINITION)%bool.

(** An introspection result with the kinds of the introspection enum. *)
Definition todo_app : IntrospectionQuery :=
  {| __schema :=
       {| types :=
            [ {| kind := "INTERFACE"; type_name := "Node";
                 possibleTypes := Some [ {| name := "User" |};
                                         {| name := "Todo" |} ] |};
              {| kind := "OBJECT"; type_name := "Todo";
                 possibleTypes := None |};
              {| kind := "OBJECT"; type_name := "User";
                 possibleTypes := None |} ];
          queryType := Some {| name := "Query" |};
          mutationType := Some {| name := "Mutation" |};
          subscriptionType := None |} |}.

(** A type whose kind is spelled as one of the AST kinds the constructor
    compares with, and that has no [possibleTypes]. *)
Definition ast_kinded_broken : IntrospectionQuery :=
  {| __schema :=
       {| types :=
            [ {| kind := "UnionTypeDefinition"; type_name := "SearchResult";
                 possibleTypes := None |} ];
          queryType := Some {| name := "Query" |};
          mutationType := None;
          subscriptionType := None |} |}.

End Schema.

(* ===================================================================== *)
(** * The types of entities and links, and the class [Store] *)
(* ===================================================================== *)

Module StoreModel.

(** [type Primitive = null | number | boolean | string].  Numbers are only
    stored and handed back, so integers stand for them. *)
Inductive Primitive : Type :=
  | PNull
  | PNumber (n : Z)
  | PBoolean (b : bool)
  | PString (s : string).

(** [type Scalar = Primitive | ScalarObject]. *)
#[warnings="-register-all"]
Inductive Scalar : Type :=
  | SPrimitive (p : Primitive)
  | SObject (o : list (string * Scalar)).

(** [type EntityField = undefined | Scalar | Scalar[]]: the defined part is
    a [FieldValue], and an [EntityField] is an [option FieldValue]. *)
Inductive FieldValue : Type :=
  | FScalar (s : Scalar)
  | FScalars (l : list Scalar).

(** An [Entity] is a null-prototype object: [fieldKey in parent] holds
    exactly for its own keys, and a key can be present with the value
    [undefined] ([Some None]). *)
Abbreviation Entity := (gmap string (option FieldValue)).

(** [type Link<Key = string> = null | Key | NullArray<Key>]. *)
Inductive Link : Type :=
  | LNull
  | LKey (key : string)
  | LKeys (keys : list (option string)).

(** [type ResolverResult = Scalar | Data | NullArray<Scalar | Data>], as
    [resolveProperty] produces it: [null], a stored field value handed back
    as it is, an entity, or an array of entities and [null]s. *)
Inductive ResolverResult : Type :=
  | RNull
  | RField (v : FieldValue)
  | REntity (e : Entity)
  | REntities (l : list (option Entity)).

(** The two maps of the class; the [resolvers] and [updates] tables are
    not read by the methods below. *)
Record Store : Type := mkStore {
  records : gmap string Entity;
  links : gmap string Link;
}.

Definition new_Store : Store := {| records := ∅; links := ∅ |}.

Definition find (this : Store) (key : string) : option Entity :=
  records this !! key.

(** [Object.create(null)]. *)
Definition empty_record : Entity := ∅.

Definition findOrCreate (this : Store) (key : string) : Store * Entity :=
  match find this key with
  | Some entity => (this, entity)
  | None =>
      ({| records := <[key := empty_record]> (records this);
          links := links this |}, empty_record)
  end.

Definition readLink (this : Store) (key : string) : option Link :=
  links this !! key.

Definition remove (this : Store) (key : string) : Store :=
  {| records := delete key (records this); links := links this |}.

Definition setLink (this : Store) (key : string) (link : Link) : Store :=
  {| records := records this; links := <[key := link]> (links this) |}.

Definition removeLink (this : Store) (key : string) : Store :=
  {| records := records this; links := delete key (links this) |}.

(** [find] as a resolver result. *)
Definition found (e : option Entity) : ResolverResult :=
  match e with
  | Some entity => REntity entity
  | None => RNull
  end.

(** Truthiness of a string, as tested by [link ? ... : null]. *)
Definition truthy (s : string) : bool := negb (String.eqb s EmptyString).

Section Helpers.
(** [keyOfEntity], [keyOfField] and [joinKeys] come from [src/helpers],
    which is not among the sources; the methods are stated over any
    three such functions, and over any type of argument objects. *)
Context {Variables : Type}.
Variable keyOfEntity : Entity → option string.
Variable keyOfField : string → option Variables → string.
Variable joinKeys : string → string → string.

Definition resolveEntity (this : Store) (entity : Entity) : option Entity :=
  match keyOfEntity entity with
  | Some key => find this key
  | None => None
  end.

(** The callback of [link.map]. *)
Definition resolve_slot (this : Store) (key : option string)
    : option Entity :=
  match key with
  | Some k => find this k
  | None => None
  end.

Definition resolveProperty (this : Store) (parent : Entity)
    (field : string) (args : option Variables) : ResolverResult :=
  let fieldKey := keyOfField field args in
  match parent !! fieldKey with
  | Some None =>
      match keyOfEntity parent with
      | None => RNull
      | Some entityKey =>
          match readLink this (joinKeys entityKey fieldKey) with
          | Some (LKeys link) => REntities (resolve_slot this <$> link)
          | Some (LKey link) =>
              if truthy link then found (find this link) else RNull
          | Some LNull | None => RNull
          end
      end
  | None => RNull
  | Some (Some fieldValue) => RField fieldValue
  end.

(** [resolveProperty] as the specification words it, to set against the
    method: a scalar link goes through [find] "if non-null". *)
Definition resolveProperty_specified (this : Store) (parent : Entity)
    (field : string) (args : option Variables) : ResolverResult :=
  let fieldKey := keyOfField field args in
  match parent !! fieldKey with
  | Some (Some fieldValue) => RField fieldValue
  | Some None =>
      match keyOfEntity parent with
      | None => RNull
      | Some entityKey =>
          match readLink this (joinKeys entityKey fieldKey) with
          | Some (LKeys link) => REntities (resolve_slot this <$> link)
          | Some (LKey link) => found (find this link)
          | Some LNull | None => RNull
          end
      end
  | None => RNull
  end.
End Helpers.

(** ** The helpers, for concrete stores *)

(** Modelled from the spec: [keyOfEntity] ([src/helpers], not among the
    sources) "returns null if [obj.__typename] is absent or falsy, or if
    neither [id] nor [_id] is present (non-null, non-undefined) on [obj];
    otherwise returns <typename>:<identifying value>. [id] takes
    precedence over [_id] when both exist."  System fields are strings or
    numbers. *)
Definition identifying (f : option (option FieldValue)) : option string :=
  match f with
  | Some (Some (FScalar (SPrimitive (PString s)))) => Some s
  | Some (Some (FScalar (SPrimitive (PNumber n)))) => Some (pretty n)
  | _ => None
  end.

Definition keyOfEntity (entity : Entity) : option string :=
  match entity !! "__typename" with
  | Some (Some (FScalar (SPrimitive (PString typename)))) =>
      if truthy typename then
        match identifying (entity !! "id") with
        | Some id => Some (typename +:+ ":" +:+ id)
        | None =>
            match identifying (entity !! "_id") with
            | Some id => Some (typename +:+ ":" +:+ id)
            | None => None
            end
        end
      else None
  | _ => None
  end.

(** Modelled from the spec: [joinKeys] ([src/helpers], not among the
    sources) "unambiguously concatenates two key strings ... via a
    separator". *)
Definition joinKeys (a b : string) : string := a +:+ "." +:+ b.

(** Modelled from the spec: [keyOfField] ([src/helpers], not among the
    sources) "returns [name] unchanged when [args] is null/empty; otherwise
    returns [name] plus a stable, argument-order-independent serialization
    of [args]".  Argument objects are finite maps from names to
    primitives, listed in the order of their keys. *)
Definition quote : Ascii.ascii := Ascii.ascii_of_nat 34%nat.

Definition print_primitive (p : Primitive) : string :=
  match p with
  | PNull => "null"
  | PNumber n => pretty n
  | PBoolean true => "true"
  | PBoolean false => "false"
  | PString s => String quote (s +:+ String quote EmptyString)
  end.

Definition print_argument (a : string * Primitive) : string :=
  a.1 +:+ ":" +:+ print_primitive a.2.

Definition keyOfField (name : string) (args : option (gmap string Primitive))
    : string :=
  match args with
  | None => name
  | Some a =>
      match map_to_list a with
      | [] => name
      | l => name +:+ "(" +:+ String.concat "," (map print_argument l) +:+ ")"
      end
  end.

(** ** A small store *)

Definition text (s : string) : option FieldValue :=
  Some (FScalar (SPrimitive (PString s))).

(** [{ __typename: 'Todo', id: '1', text: 'a', author: undefined,
      watchers: undefined }], the last two being links. *)
Definition todo : Entity :=
  <["__typename" := text "Todo"]>
    (<["id" := text "1"]>
      (<["text" := text "a"]>
        (<["author" := None]> (<["watchers" := None]> ∅)))).

Definition user (id : string) : Entity :=
  <["__typename" := text "User"]> (<["id" := text id]> ∅).

Definition todos : Store :=
  {| records :=
       <["Todo:1" := todo]>
         (<["User:2" := user "2"]> (<["User:3" := user "3"]> ∅));
     links :=
       <["Todo:1.author" := LKey "User:2"]>
         (<["Todo:1.watchers" := LKeys [Some "User:2"; None; Some "User:3"]]>
            ∅) |}.

(** A store in which a record sits under the empty key and a link names
    it: [findOrCreate('')] and [setLink('Todo:1.author', '')]. *)
Definition blank_key : Store :=
  setLink (findOrCreate new_Store EmptyString).1 "Todo:1.author"
    (LKey EmptyString).

End StoreModel.

(* ===================================================================== *)
(** * Properties of the layered map *)
(* ===================================================================== *)

Module MapProps.
Import LayeredMap.

Section Facts.
Context {T : Type}.
Implicit Types (map : KVMap T) (key : string) (value fromBase v : option T)
  (L : Z) (ks : list Z) (layer : gmap string (option T))
  (o : gmap Z (gmap string (option T))).

(** ** [indexOf] and [splice] *)

Lemma indexOf_range ks L : indexOf ks L = -1 ∨ 0 ≤ indexOf ks L.
Proof.
  induction ks as [|y ks IH]; simpl; [by left|].
  destruct (decide (y = L)); [right; lia|].
  destruct (Z.ltb_spec (indexOf ks L) 0); [by left | right; lia].
Qed.

Lemma indexOf_absent ks L : L ∉ ks → indexOf ks L = -1.
Proof.
  induction ks as [|y ks IH]; simpl; [done|].
  intros [Hy Hks]%not_elem_of_cons.
  rewrite decide_False by done. by rewrite IH.
Qed.

Lemma indexOf_first ks1 ks2 L :
  L ∉ ks1 → indexOf (ks1 ++ L :: ks2) L = Z.of_nat (length ks1).
Proof.
  induction ks1 as [|y ks1 IH]; simpl.
  - intros _. by rewrite decide_True.
  - intros [Hy Hks]%not_elem_of_cons.
    rewrite decide_False by done. rewrite IH by done.
    destruct (Z.ltb_spec (Z.of_nat (length ks1)) 0); lia.
Qed.

Lemma first_occurrence ks L :
  L ∈ ks → ∃ ks1 ks2, ks = ks1 ++ L :: ks2 ∧ L ∉ ks1.
Proof.
  induction ks as [|y ks IH]; [by intros ?%elem_of_nil|].
  destruct (decide (y = L)) as [->|Hne].
  - intros _. exists [], ks. split; [done | apply not_elem_of_nil].
  - intros [?|Hin]%elem_of_cons; [congruence|].
    destruct (IH Hin) as (ks1 & ks2 & -> & Hfresh).
    exists (y :: ks1), ks2. split; [done|].
    apply not_elem_of_cons. by split.
Qed.

Lemma splice1_middle ks1 ks2 L :
  splice1 (ks1 ++ L :: ks2) (Z.of_nat (length ks1)) = ks1 ++ ks2.
Proof.
  unfold splice1. rewrite Nat2Z.id, delete_take_drop.
  rewrite take_app_length.
  by rewrite (cons_middle L), app_assoc, drop_app_length'
    by (rewrite length_app; simpl; lia).
Qed.

(** ** [clear], case by case *)

Lemma clear_absent map L : L ∉ keys map → clear map L = map.
Proof.
  intros Hnot. unfold clear. by rewrite indexOf_absent.
Qed.

Lemma clear_present map L ks1 ks2 :
  keys map = ks1 ++ L :: ks2 → L ∉ ks1 →
  clear map L =
    {| optimistic := delete L (optimistic map);
       base := base map;
       keys := ks1 ++ ks2 |}.
Proof.
  intros Hks Hfresh. unfold clear. rewrite Hks, indexOf_first by done.
  rewrite splice1_middle.
  by destruct (Z.ltb_spec (-1) (Z.of_nat (length ks1))); [|lia].
Qed.

(** ** [set], case by case *)

Lemma truthy_nonzero L : truthy L = true ↔ L ≠ 0.
Proof. unfold truthy. destruct (Z.eqb_spec L 0); naive_solver. Qed.

(** After the inner [if], the overlay that [.set(key, value)] is called on
    exists. *)
Lemma open_layer_opens map L : is_open (open_layer map L) L.
Proof.
  unfold is_open, open_layer.
  destruct (optimistic map !! L) as [layer|] eqn:Hl; simpl.
  - by rewrite Hl.
  - by rewrite lookup_insert_eq.
Qed.

Lemma set_base map key value ok :
  (ok = None ∨ ok = Some 0) →
  set map key value ok =
    {| optimistic := optimistic map;
       base := match value with
               | None => delete key (base map)
               | Some v => <[key := v]> (base map)
               end;
       keys := keys map |}.
Proof. intros [-> | ->]; simpl; unfold base_set; by destruct value. Qed.

Lemma set_fresh_layer map key value L :
  L ≠ 0 → optimistic map !! L = None →
  set map key value (Some L) =
    {| optimistic := <[L := {[key := value]}]> (optimistic map);
       base := base map;
       keys := L :: keys map |}.
Proof.
  intros HL Hnone. unfold set.
  rewrite (proj2 (truthy_nonzero L) HL).
  unfold open_layer, overlay_set. rewrite Hnone. simpl.
  by rewrite alter_insert_eq, insert_empty.
Qed.

Lemma set_open_layer map key value L layer :
  L ≠ 0 → optimistic map !! L = Some layer →
  set map key value (Some L) =
    {| optimistic := <[L := <[key := value]> layer]> (optimistic map);
       base := base map;
       keys := keys map |}.
Proof.
  intros HL Hsome. unfold set.
  rewrite (proj2 (truthy_nonzero L) HL).
  unfold open_layer, overlay_set. rewrite Hsome. f_equal.
  apply map_eq. intros i. destruct (decide (L = i)) as [<-|Hne].
  - by rewrite lookup_alter_eq, lookup_insert_eq, Hsome.
  - by rewrite lookup_alter_ne, lookup_insert_ne.
Qed.

(** ** The invariant is kept by every call *)

Lemma wf_make : wf (@make T).
Proof.
  split; simpl; [constructor|].
  intros L. unfold is_open, make, makeDict. simpl.
  rewrite lookup_empty, elem_of_nil. split; [done | by intros [? ?]].
Qed.

Lemma wf_set map key value ok : wf map → wf (set map key value ok).
Proof.
  intros [Hnd Hopen].
  destruct ok as [L|]; [destruct (decide (L = 0)) as [->|HL]|].
  - rewrite set_base by auto. by split.
  - destruct (optimistic map !! L) as [layer|] eqn:Hl.
    + rewrite (set_open_layer _ _ _ _ layer) by done.
      split; simpl; [done|]. intros L'. rewrite Hopen. unfold is_open. simpl.
      destruct (decide (L = L')) as [<-|Hne].
      * rewrite lookup_insert_eq, Hl. split; eauto.
      * by rewrite lookup_insert_ne.
    + rewrite set_fresh_layer by done.
      split; simpl.
      * apply NoDup_cons. split; [|done].
        rewrite Hopen. unfold is_open. rewrite Hl. by intros [? ?].
      * intros L'. rewrite elem_of_cons, Hopen. unfold is_open. simpl.
        destruct (decide (L = L')) as [<-|Hne].
        -- rewrite lookup_insert_eq. split; eauto.
        -- rewrite lookup_insert_ne by done. split; [intros [?|?]|]; eauto.
           congruence.
  - rewrite set_base by auto. by split.
Qed.

Lemma wf_clear map L : wf map → wf (clear map L).
Proof.
  intros [Hnd Hopen].
  destruct (decide (L ∈ keys map)) as [Hin|Hnot];
    [|by rewrite clear_absent].
  destruct (first_occurrence _ _ Hin) as (ks1 & ks2 & Hks & Hfresh).
  rewrite (clear_present _ _ ks1 ks2) by done.
  rewrite Hks in Hnd.
  apply NoDup_app in Hnd as (Hnd1 & Hdisj & [Hfresh2 Hnd2]%NoDup_cons).
  split; simpl.
  - apply NoDup_app. split_and!; [done| |done].
    intros x Hx Hx2. apply (Hdisj x Hx). by right.
  - intros L'. unfold is_open. simpl.
    destruct (decide (L = L')) as [<-|Hne].
    + rewrite lookup_delete_eq, elem_of_app. split; [|by intros [? ?]].
      intros [?|?]; done.
    + rewrite lookup_delete_ne by done.
      specialize (Hopen L'). unfold is_open in Hopen. rewrite <- Hopen, Hks.
      rewrite !elem_of_app, elem_of_cons.
      split; [intros [?|?]; auto | intros [?|[?|?]]; auto; congruence].
Qed.

Lemma zero_closed_set map key value ok :
  zero_closed map → zero_closed (set map key value ok).
Proof.
  unfold zero_closed. intros Hz.
  destruct ok as [L|]; [destruct (decide (L = 0)) as [->|HL]|].
  - by rewrite set_base by auto.
  - destruct (optimistic map !! L) as [layer|] eqn:Hl.
    + rewrite (set_open_layer _ _ _ _ layer) by done. simpl.
      by rewrite lookup_insert_ne.
    + rewrite set_fresh_layer by done. simpl. by rewrite lookup_insert_ne.
  - by rewrite set_base by auto.
Qed.

Lemma zero_closed_clear map L : zero_closed map → zero_closed (clear map L).
Proof.
  unfold zero_closed, clear. intros Hz.
  destruct (-1 <? indexOf (keys map) L); [simpl|done].
  rewrite lookup_delete. by case_decide.
Qed.

Lemma reachable_inv map : reachable map → wf map ∧ zero_closed map.
Proof.
  induction 1 as [|map key value ok _ [IH1 IH2]|map ok _ [IH1 IH2]].
  - split; [apply wf_make | done].
  - split; [by apply wf_set | by apply zero_closed_set].
  - split; [by apply wf_clear | by apply zero_closed_clear].
Qed.

Lemma reachable_exec map c : reachable map → reachable (exec map c).
Proof. destruct c; simpl; by constructor. Qed.

Lemma reachable_foldl cs map : reachable map → reachable (foldl exec map cs).
Proof.
  revert map. induction cs as [|c cs IH]; simpl; [done|].
  intros map Hr. by apply IH, reachable_exec.
Qed.

Lemma reachable_run cs : reachable (@run T cs).
Proof. apply reachable_foldl. constructor. Qed.

Lemma reachable_history map : reachable map → ∃ cs, map = run cs.
Proof.
  induction 1 as [|map key value ok _ [cs ->]|map ok _ [cs ->]].
  - by exists [].
  - exists (cs ++ [CallSet key value ok]). unfold run. by rewrite foldl_snoc.
  - exists (cs ++ [CallClear ok]). unfold run. by rewrite foldl_snoc.
Qed.

(** ** The loop of [get] *)

Lemma scan_skip o ks1 ks2 key fromBase :
  (∀ L, L ∈ ks1 → misses o key L) →
  scan o (ks1 ++ ks2) key fromBase = scan o ks2 key fromBase.
Proof.
  induction ks1 as [|L ks1 IH]; simpl; [done|].
  intros Hmiss.
  destruct (Hmiss L) as (layer & -> & ->); [by left|].
  apply IH. intros L' HL'. apply Hmiss. by right.
Qed.

Lemma scan_hit o L ks key fromBase layer v :
  o !! L = Some layer → layer !! key = Some v →
  scan o (L :: ks) key fromBase = Return v.
Proof. intros Hl Hk. simpl. by rewrite Hl, Hk. Qed.

Lemma scan_miss o ks key fromBase :
  (∀ L, L ∈ ks → misses o key L) → scan o ks key fromBase = Return fromBase.
Proof.
  intros Hmiss. rewrite <- (app_nil_r ks). by rewrite scan_skip.
Qed.

Lemma scan_cases o ks key fromBase :
  (∀ L, L ∈ ks → is_Some (o !! L)) →
  (∃ ks1 L ks2 layer v,
      ks = ks1 ++ L :: ks2 ∧ (∀ L', L' ∈ ks1 → misses o key L') ∧
      o !! L = Some layer ∧ layer !! key = Some v ∧
      scan o ks key fromBase = Return v)
  ∨ ((∀ L, L ∈ ks → misses o key L) ∧
     scan o ks key fromBase = Return fromBase).
Proof.
  induction ks as [|L ks IH]; intros Hopen.
  - right. split; [by intros L ?%elem_of_nil | done].
  - destruct (Hopen L) as [layer Hl]; [by left|].
    destruct (layer !! key) as [v|] eqn:Hk.
    + left. exists [], L, ks, layer, v.
      split_and!; [done | by intros L' ?%elem_of_nil | done | done |].
      by apply (scan_hit _ _ _ _ _ layer).
    + assert (misses o key L) as HmL by (by exists layer).
      destruct IH as [(ks1 & L1 & ks2 & layer1 & v & -> & Hm & Hl1 & Hk1 & Hs)
                     |[Hm Hs]].
      * intros L' HL'. apply Hopen. by right.
      * left. exists (L :: ks1), L1, ks2, layer1, v.
        split_and!; [done| |done|done|].
        -- intros L' [->|?]%elem_of_cons; auto.
        -- simpl. by rewrite Hl, Hk.
      * right. split.
        -- intros L' [->|?]%elem_of_cons; auto.
        -- simpl. by rewrite Hl, Hk.
Qed.

Lemma misses_not_holds map L key :
  is_open map L → ¬ holds map L key → misses (optimistic map) key L.
Proof.
  intros [layer Hl] Hnot. exists layer. split; [done|].
  destruct (layer !! key) as [v|] eqn:Hk; [|done].
  destruct Hnot. exists layer. split; [done | by rewrite Hk].
Qed.

Lemma holds_not_misses map L key :
  misses (optimistic map) key L → ¬ holds map L key.
Proof.
  intros (layer & Hl & Hk) (layer' & Hl' & [v Hv]). congruence.
Qed.

(** [get] on a container that satisfies the invariant: the first id of
    [keys] whose overlay has the key decides. *)
Lemma get_first_holder map key ks1 L ks2 layer v :
  wf map → keys map = ks1 ++ L :: ks2 →
  (∀ L', L' ∈ ks1 → ¬ holds map L' key) →
  optimistic map !! L = Some layer → layer !! key = Some v →
  get map key = Return v.
Proof.
  intros [_ Hopen] Hks Hnone Hl Hk. unfold get. rewrite Hks.
  rewrite scan_skip; [by apply (scan_hit _ _ _ _ _ layer)|].
  intros L' HL'. apply misses_not_holds; [|by apply Hnone].
  apply Hopen. rewrite Hks, elem_of_app. by left.
Qed.

Lemma get_no_holder map key :
  wf map → (∀ L, is_open map L → ¬ holds map L key) →
  get map key = Return (base map !! key).
Proof.
  intros [_ Hopen] Hnone. unfold get. apply scan_miss.
  intros L HL. apply misses_not_holds; [by apply Hopen|].
  by apply Hnone, Hopen.
Qed.

Lemma get_cases map key :
  wf map →
  (∃ ks1 L ks2 layer v,
      keys map = ks1 ++ L :: ks2 ∧ (∀ L', L' ∈ ks1 → ¬ holds map L' key) ∧
      optimistic map !! L = Some layer ∧ layer !! key = Some v ∧
      get map key = Return v)
  ∨ ((∀ L, is_open map L → ¬ holds map L key) ∧
     get map key = Return (base map !! key)).
Proof.
  intros [Hnd Hopen]. unfold get.
  destruct (scan_cases (optimistic map) (keys map) key (base map !! key))
    as [(ks1 & L & ks2 & layer & v & Hks & Hm & Hl & Hk & Hs)|[Hm Hs]].
  - intros L HL. by apply Hopen.
  - left. exists ks1, L, ks2, layer, v. split_and!; try done.
    intros L' HL'. by apply holds_not_misses, Hm.
  - right. split; [|done].
    intros L HL. by apply holds_not_misses, Hm, Hopen.
Qed.

(** ** Opening times along a history *)

Lemma StronglySorted_change {A} (R R' : A → A → Prop) (l : list A) :
  (∀ x y, x ∈ l → y ∈ l → R x y → R' x y) →
  StronglySorted R l → StronglySorted R' l.
Proof.
  induction l as [|x l IH]; intros HR; [constructor|].
  rewrite !StronglySorted_cons, !Forall_forall. intros [Hx Hl]. split.
  - intros y Hy. apply HR; [by left | by right | by apply Hx].
  - apply IH; [|done]. intros y z Hy Hz. apply HR; by right.
Qed.

Lemma newer_irrefl_pair t L L' : newer t L L' → newer t L' L → False.
Proof.
  intros (a & b & Ha & Hb & Hab) (a' & b' & Ha' & Hb' & Hab').
  rewrite Ha in Hb'. rewrite Hb in Ha'. simplify_eq. lia.
Qed.

Lemma tracks_make : tracks ∅ 0%nat (@make T).
Proof.
  split; simpl.
  - intros L. rewrite lookup_empty, elem_of_nil. split; [done | by intros [? ?]].
  - intros L a. by rewrite lookup_empty.
  - constructor.
Qed.

Lemma tracks_later t n map : tracks t n map → tracks t (S n) map.
Proof.
  intros [Hdom Hpast Hord]. split; [done| |done].
  intros L a Ha. specialize (Hpast L a Ha). lia.
Qed.

Lemma tracks_same_keys t n map map' :
  keys map' = keys map → tracks t n map → tracks t (S n) map'.
Proof.
  intros Hks [Hdom Hpast Hord]%tracks_later.
  split; [|done|]; by rewrite Hks.
Qed.

Lemma tracks_exec t n map c :
  wf map → tracks t n map → tracks (stamp t n c) (S n) (exec map c).
Proof.
  intros Hwf Htr. pose proof Hwf as [Hnd Hopen].
  pose proof Htr as [Hdom Hpast Hord].
  destruct c as [key value [L|]|L]; cbn [exec stamp].
  - destruct (decide (L = 0)) as [->|HL].
    { rewrite set_base by auto. by apply (tracks_same_keys _ _ map). }
    rewrite (proj2 (truthy_nonzero L) HL).
    destruct (optimistic map !! L) as [layer|] eqn:Hl.
    + rewrite (set_open_layer _ _ _ _ layer) by done.
      assert (is_Some (t !! L)) as [a Ha].
      { apply Hdom, Hopen. by exists layer. }
      rewrite Ha. by apply (tracks_same_keys _ _ map).
    + rewrite set_fresh_layer by done.
      assert (t !! L = None) as Ht.
      { apply eq_None_not_Some. rewrite <- Hdom, Hopen.
        unfold is_open. rewrite Hl. by intros [? ?]. }
      rewrite Ht. split; simpl.
      * intros L'. rewrite elem_of_cons, Hdom.
        destruct (decide (L = L')) as [<-|Hne].
        -- rewrite lookup_insert_eq. split; eauto.
        -- rewrite lookup_insert_ne by done. split; [intros [?|?]|]; eauto.
           congruence.
      * intros L' a. destruct (decide (L = L')) as [<-|Hne].
        -- rewrite lookup_insert_eq. intros [= <-]. lia.
        -- rewrite lookup_insert_ne by done. intros Ha.
           specialize (Hpast L' a Ha). lia.
      * apply StronglySorted_cons. split.
        -- apply Forall_forall. intros L' HL'.
           destruct (proj1 (Hdom L') HL') as [b Hb].
           exists n, b. rewrite lookup_insert_eq.
           rewrite lookup_insert_ne by congruence.
           split_and!; [done..|]. by apply (Hpast L').
        -- eapply StronglySorted_change; [|exact Hord].
           intros x y _ _ (a & b & Ha & Hb & Hab). exists a, b.
           rewrite !lookup_insert_ne by congruence. done.
  - rewrite set_base by auto. by apply (tracks_same_keys _ _ map).
  - destruct (decide (L ∈ keys map)) as [Hin|Hnot].
    + destruct (first_occurrence _ _ Hin) as (ks1 & ks2 & Hks & Hfresh).
      rewrite (clear_present _ _ ks1 ks2) by done.
      rewrite Hks in Hnd, Hord.
      apply NoDup_app in Hnd as (Hnd1 & Hdisj & [Hfresh2 Hnd2]%NoDup_cons).
      assert (∀ x, x ∈ ks1 ++ ks2 → x ≠ L) as Hother.
      { intros x [?|?]%elem_of_app ->; done. }
      split; simpl.
      * intros L'. destruct (decide (L = L')) as [<-|Hne].
        -- rewrite lookup_delete_eq. split; [|by intros [? ?]].
           intros HL. by destruct (Hother L HL).
        -- rewrite lookup_delete_ne by done. rewrite <- Hdom, Hks.
           rewrite !elem_of_app, elem_of_cons.
           split; [intros [?|?]; auto | intros [?|[?|?]]; auto; congruence].
      * intros L' a [_ Ha]%lookup_delete_Some.
        specialize (Hpast L' a Ha). lia.
      * apply (StronglySorted_change (newer t)).
        -- intros x y Hx Hy (a & b & Ha & Hb & Hab). exists a, b.
           rewrite !lookup_delete_ne; [done|..].
           ++ intros <-. by destruct (Hother L Hy).
           ++ intros <-. by destruct (Hother L Hx).
        -- apply StronglySorted_app in Hord as (Hcross & H1 & H2).
           apply StronglySorted_cons in H2 as [_ H2].
           apply StronglySorted_app. split_and!; [|done..].
           intros x Hx y Hy. apply Hcross; [done | by right].
    + rewrite clear_absent by done.
      rewrite delete_id; [by apply tracks_later|].
      apply eq_None_not_Some. by rewrite <- Hdom.
Qed.

Lemma tracks_foldl cs t n map :
  wf map → tracks t n map →
  tracks (stamps_from t n cs) (n + length cs) (foldl exec map cs)
  ∧ wf (foldl exec map cs).
Proof.
  revert t n map. induction cs as [|c cs IH]; intros t n map Hwf Htr; simpl.
  - by rewrite Nat.add_0_r.
  - replace (n + S (length cs))%nat with (S n + length cs)%nat by lia.
    apply IH; [|by apply tracks_exec].
    destruct c; simpl; [by apply wf_set | by apply wf_clear].
Qed.

Lemma tracks_run cs : tracks (opened_at cs) (length cs) (@run T cs).
Proof. apply (tracks_foldl cs ∅ 0%nat make); [apply wf_make | apply tracks_make]. Qed.

(** ** The statements of the specification *)

(** C2.  In a container produced by any history of calls, [get] returns
    the value held by the most recently opened overlay that has the key,
    also when that value is the [undefined] tombstone ([v = None]), whatever
    older overlays and [base] hold; it returns the value of [base] (or
    [undefined]) when no open overlay has the key; and one of the two cases
    always applies. *)
Theorem get_most_recent_layer_wins (cs : list (call T)) key :
  (∀ L layer v,
      optimistic (run cs) !! L = Some layer → layer !! key = Some v →
      (∀ L', L' ≠ L → holds (run cs) L' key → newer (opened_at cs) L L') →
      get (run cs) key = Return v)
  ∧ ((∀ L, is_open (run cs) L → ¬ holds (run cs) L key) →
     get (run cs) key = Return (base (run cs) !! key))
  ∧ ((∃ L layer v,
         optimistic (run cs) !! L = Some layer ∧ layer !! key = Some v ∧
         (∀ L', L' ≠ L → holds (run cs) L' key → newer (opened_at cs) L L') ∧
         get (run cs) key = Return v)
     ∨ ((∀ L, is_open (run cs) L → ¬ holds (run cs) L key) ∧
        get (run cs) key = Return (base (run cs) !! key))).
Proof.
  destruct (reachable_inv _ (reachable_run cs)) as [Hwf _].
  pose proof (tracks_run cs) as [Hdom _ Hord].
  pose proof Hwf as [Hnd Hopen].
  split_and!.
  - intros L layer v Hl Hk Hnewest.
    assert (L ∈ keys (run cs)) as Hin by (apply Hopen; by exists layer).
    destruct (first_occurrence _ _ Hin) as (ks1 & ks2 & Hks & Hfresh).
    apply (get_first_holder _ _ ks1 L ks2 layer); try done.
    intros L' HL' Hholds.
    assert (L' ≠ L) as Hne by (by intros ->).
    apply (newer_irrefl_pair (opened_at cs) L L'); [by apply Hnewest|].
    rewrite Hks in Hord. apply StronglySorted_app in Hord as (Hcross & _).
    apply Hcross; [done | by left].
  - by apply get_no_holder.
  - destruct (get_cases (run cs) key Hwf)
      as [(ks1 & L & ks2 & layer & v & Hks & Hnone & Hl & Hk & Hget)|Hbase];
      [left | by right].
    exists L, layer, v. split_and!; try done.
    intros L' Hne Hholds.
    assert (L' ∈ keys (run cs)) as Hin.
    { apply Hopen. destruct Hholds as (layer' & ? & _). by exists layer'. }
    rewrite Hks in Hin, Hord.
    apply StronglySorted_app in Hord as (_ & _ & [Hafter _]%StronglySorted_cons).
    rewrite Forall_forall in Hafter.
    apply elem_of_app in Hin as [Hin|[?|Hin]%elem_of_cons].
    + by destruct (Hnone L' Hin).
    + done.
    + by apply Hafter.
Qed.

(** ** What [set] on a layer and [clear] leave behind *)

Lemma set_layer_self map key value L :
  L ≠ 0 →
  optimistic (set map key value (Some L)) !! L
  = Some (<[key := value]> (default ∅ (optimistic map !! L))).
Proof.
  intros HL. destruct (optimistic map !! L) as [layer|] eqn:Hl.
  - rewrite (set_open_layer _ _ _ _ layer) by done. simpl.
    by rewrite lookup_insert_eq.
  - rewrite set_fresh_layer by done. simpl.
    by rewrite lookup_insert_eq, insert_empty.
Qed.

Lemma set_layer_other map key value L L' :
  L ≠ 0 → L' ≠ L →
  optimistic (set map key value (Some L)) !! L' = optimistic map !! L'.
Proof.
  intros HL Hne. destruct (optimistic map !! L) as [layer|] eqn:Hl.
  - rewrite (set_open_layer _ _ _ _ layer) by done. simpl.
    by rewrite lookup_insert_ne.
  - rewrite set_fresh_layer by done. simpl. by rewrite lookup_insert_ne.
Qed.

Lemma set_layer_base map key value L :
  L ≠ 0 → base (set map key value (Some L)) = base map.
Proof.
  intros HL. destruct (optimistic map !! L) as [layer|] eqn:Hl.
  - by rewrite (set_open_layer _ _ _ _ layer).
  - by rewrite set_fresh_layer.
Qed.

Lemma set_layer_keys map key value L :
  L ≠ 0 →
  keys (set map key value (Some L))
  = match optimistic map !! L with
    | Some _ => keys map
    | None => L :: keys map
    end.
Proof.
  intros HL. destruct (optimistic map !! L) as [layer|] eqn:Hl.
  - by rewrite (set_open_layer _ _ _ _ layer).
  - by rewrite set_fresh_layer.
Qed.

Lemma set_base_lookup map key v1 :
  base (set map key v1 None) !! key = v1.
Proof.
  rewrite set_base by auto. simpl. destruct v1.
  - by rewrite lookup_insert_eq.
  - by rewrite lookup_delete_eq.
Qed.

Lemma clear_base map L : base (clear map L) = base map.
Proof. unfold clear. by destruct (-1 <? indexOf (keys map) L). Qed.

Lemma clear_optimistic map L :
  wf map → optimistic (clear map L) = delete L (optimistic map).
Proof.
  intros [_ Hopen]. destruct (decide (L ∈ keys map)) as [Hin|Hnot].
  - destruct (first_occurrence _ _ Hin) as (ks1 & ks2 & Hks & Hfresh).
    by rewrite (clear_present _ _ ks1 ks2).
  - rewrite clear_absent by done. symmetry. apply delete_id.
    apply eq_None_not_Some. by rewrite <- (Hopen L).
Qed.

Lemma filter_other_fresh ks L : L ∉ ks → filter (λ L', L' ≠ L) ks = ks.
Proof.
  induction ks as [|y ks IH]; [done|].
  intros [Hy Hks]%not_elem_of_cons.
  rewrite filter_cons_True by congruence. by rewrite IH.
Qed.

Lemma clear_keys map L :
  NoDup (keys map) → keys (clear map L) = filter (λ L', L' ≠ L) (keys map).
Proof.
  intros Hnd. destruct (decide (L ∈ keys map)) as [Hin|Hnot].
  - destruct (first_occurrence _ _ Hin) as (ks1 & ks2 & Hks & Hfresh).
    rewrite (clear_present _ _ ks1 ks2) by done. simpl.
    rewrite Hks in Hnd |- *.
    apply NoDup_app in Hnd as (_ & _ & [Hfresh2 _]%NoDup_cons).
    rewrite filter_app, filter_cons_False by (by intros ?).
    by rewrite !filter_other_fresh.
  - rewrite clear_absent by done. by rewrite filter_other_fresh.
Qed.

Lemma StronglySorted_lookup {A} (R : A → A → Prop) (l : list A) i j x y :
  StronglySorted R l → (i < j)%nat →
  l !! i = Some x → l !! j = Some y → R x y.
Proof.
  intros Hs. revert i j. induction Hs as [|z l Hs IH Hall].
  - intros i j _. by rewrite lookup_nil.
  - intros [|i] [|j] Hij; try lia; simpl.
    + intros [= ->] Hy. rewrite Forall_forall in Hall.
      apply Hall. by apply list_elem_of_lookup_2 in Hy.
    + apply IH. lia.
Qed.

Lemma indexOf_position ks L :
  NoDup ks → L ∈ ks →
  ∃ i : nat, indexOf ks L = Z.of_nat i ∧ ∀ j, ks !! j = Some L ↔ j = i.
Proof.
  intros Hnd Hin.
  destruct (first_occurrence _ _ Hin) as (ks1 & ks2 & -> & Hfresh).
  exists (length ks1). split; [by apply indexOf_first|].
  intros j. split.
  - intros Hj. eapply NoDup_lookup; [done|done|].
    by rewrite list_lookup_middle.
  - intros ->. by rewrite list_lookup_middle.
Qed.

(** C3 (amended).  [set] with a layer id that is neither null nor zero
    writes [key ↦ value] into the overlay of that id, opening it at the
    front of [keys] when it was not open; an [undefined] value is stored as
    a tombstone ([layer !! key = Some None]); the other entries of the
    overlay, the other overlays and [base] stay as they were.  With a null
    or zero layer id, [set] deletes [key] from [base] for [undefined] and
    overwrites it for any other value, and no overlay changes. *)
Theorem set_writes_layer_or_base map key value ok :
  (∀ L, ok = Some L → L ≠ 0 →
     (∃ layer,
         optimistic (set map key value ok) !! L = Some layer ∧
         layer !! key = Some value ∧
         ∀ key', key' ≠ key →
           layer !! key' = default ∅ (optimistic map !! L) !! key') ∧
     (∀ L', L' ≠ L →
         optimistic (set map key value ok) !! L' = optimistic map !! L') ∧
     base (set map key value ok) = base map ∧
     keys (set map key value ok)
     = match optimistic map !! L with
       | Some _ => keys map
       | None => L :: keys map
       end)
  ∧ (ok = None ∨ ok = Some 0 →
     optimistic (set map key value ok) = optimistic map ∧
     keys (set map key value ok) = keys map ∧
     base (set map key value ok)
     = match value with
       | None => delete key (base map)
       | Some v => <[key := v]> (base map)
       end).
Proof.
  split.
  - intros L -> HL. split_and!.
    + exists (<[key := value]> (default ∅ (optimistic map !! L))).
      split_and!; [by apply set_layer_self | by rewrite lookup_insert_eq |].
      intros key' Hne. by rewrite lookup_insert_ne.
    + intros L' Hne. by apply set_layer_other.
    + by apply set_layer_base.
    + by apply set_layer_keys.
  - intros Hok. by rewrite set_base.
Qed.

(** C4 (amended).  For a layer id [L] other than zero and a container in
    which no open overlay other than the one of [L] has the key: after
    [set(c, k, v1, null)] and [set(c, k, v2, L)], [get(c, k)] returns [v2],
    and after [clear(c, L)] it returns [v1] again. *)
Theorem optimistic_write_isolated map key v1 v2 L :
  wf map → L ≠ 0 →
  (∀ L', L' ≠ L → is_open map L' → ¬ holds map L' key) →
  isolated map key v1 v2 L.
Proof.
  intros Hwf HL Hothers. unfold isolated.
  set (m1 := set map key v1 None).
  set (m2 := set m1 key v2 (Some L)).
  assert (optimistic m1 = optimistic map) as Ho1
    by (unfold m1; by rewrite set_base by auto).
  assert (wf m2) as Hwf2 by (by do 2 apply wf_set).
  assert (∀ L', L' ≠ L → optimistic m2 !! L' = optimistic map !! L') as Ho2.
  { intros L' Hne. unfold m2. by rewrite set_layer_other, Ho1. }
  assert (∀ L', L' ≠ L → ¬ holds m2 L' key) as Hnone2.
  { intros L' Hne (layer & Hl & Hk). rewrite Ho2 in Hl by done.
    apply (Hothers L' Hne); by exists layer. }
  split.
  - assert (L ∈ keys m2) as Hin.
    { apply (wf_open _ Hwf2). unfold is_open, m2.
      rewrite set_layer_self by done. eauto. }
    destruct (first_occurrence _ _ Hin) as (ks1 & ks2 & Hks & Hfresh).
    eapply (get_first_holder m2 key ks1 L ks2); try done.
    + intros L' HL'. apply Hnone2. by intros ->.
    + unfold m2. by apply set_layer_self.
    + by rewrite lookup_insert_eq.
  - rewrite get_no_holder; [|by apply wf_clear|].
    + rewrite clear_base. unfold m2. rewrite set_layer_base by done.
      unfold m1. by rewrite set_base_lookup.
    + intros L' [layer Hl] (layer' & Hl' & Hk).
      rewrite clear_optimistic in Hl, Hl' by done.
      apply lookup_delete_Some in Hl' as [Hne Hl'].
      apply (Hnone2 L'); [done|]. by exists layer'.
Qed.

(** C5.  In a container reachable from [make()], [keys] names no layer id
    twice, and a [set] on an id that is already open puts the write into
    the overlay that is there: the overlay keeps its other entries, [keys]
    is not touched, and no second overlay appears. *)
Theorem one_overlay_per_layer map :
  reachable map →
  NoDup (keys map) ∧
  ∀ L layer key value,
    optimistic map !! L = Some layer →
    set map key value (Some L)
    = {| optimistic := <[L := <[key := value]> layer]> (optimistic map);
         base := base map;
         keys := keys map |}
    ∧ NoDup (keys (set map key value (Some L))).
Proof.
  intros [[Hnd Hopen] Hzero]%reachable_inv. split; [done|].
  intros L layer key value Hl.
  assert (L ≠ 0) as HL by (intros ->; unfold zero_closed in Hzero; congruence).
  by rewrite (set_open_layer _ _ _ _ layer).
Qed.

(** C6.  On a container that satisfies the invariant, [clear] removes the
    overlay of an open layer id altogether and leaves the rest as it was;
    it changes nothing when the id is not open; clearing twice equals
    clearing once; and the ids that stay keep their order. *)
Theorem clear_removes_layer map L :
  wf map →
  (is_open map L →
     optimistic (clear map L) = delete L (optimistic map) ∧
     ¬ is_open (clear map L) L ∧ L ∉ keys (clear map L))
  ∧ (¬ is_open map L → clear map L = map)
  ∧ clear (clear map L) L = clear map L
  ∧ keys (clear map L) = filter (λ L', L' ≠ L) (keys map)
  ∧ base (clear map L) = base map
  ∧ (∀ L', L' ≠ L → optimistic (clear map L) !! L' = optimistic map !! L').
Proof.
  intros Hwf. pose proof Hwf as [Hnd Hopen].
  assert (L ∉ keys (clear map L)) as Hgone.
  { rewrite clear_keys by done. rewrite list_elem_of_filter. by intros [? _]. }
  split_and!.
  - intros _. split_and!; [by apply clear_optimistic| |done].
    unfold is_open. rewrite clear_optimistic, lookup_delete_eq by done.
    by intros [? ?].
  - intros Hclosed. apply clear_absent. by rewrite Hopen.
  - by apply clear_absent.
  - by apply clear_keys.
  - apply clear_base.
  - intros L' Hne. by rewrite clear_optimistic, lookup_delete_ne.
Qed.

(** C10.  After any history of [set] and [clear] calls from [make()]:
    [keys] holds exactly the ids that have an overlay in the dictionary,
    each once, which are the ids the history left open, listed from the
    most recently opened to the oldest; [get] therefore returns without a
    [TypeError] for every key; and [indexOf] finds an open id at the one
    position where it occurs. *)
Theorem keys_list_open_layers (cs : list (call T)) :
  NoDup (keys (run cs))
  ∧ (∀ L, L ∈ keys (run cs) ↔ is_open (run cs) L)
  ∧ (∀ L, L ∈ keys (run cs) ↔ is_Some (opened_at cs !! L))
  ∧ (∀ i j L L', (i < j)%nat →
       keys (run cs) !! i = Some L → keys (run cs) !! j = Some L' →
       newer (opened_at cs) L L')
  ∧ (∀ key, returns (get (run cs) key))
  ∧ (∀ L, is_open (run cs) L →
       ∃ i : nat, indexOf (keys (run cs)) L = Z.of_nat i ∧
                  ∀ j, keys (run cs) !! j = Some L ↔ j = i).
Proof.
  destruct (reachable_inv _ (reachable_run cs)) as [Hwf _].
  pose proof (tracks_run cs) as [Hdom _ Hord].
  pose proof Hwf as [Hnd Hopen].
  split_and!; try done.
  - intros i j L L' Hij Hi Hj. by eapply StronglySorted_lookup.
  - intros key. unfold returns.
    destruct (get_cases (run cs) key Hwf)
      as [(_ & _ & _ & _ & v & _ & _ & _ & _ & ->)|[_ ->]]; eauto.
  - intros L HL. apply indexOf_position; [done | by apply Hopen].
Qed.

End Facts.

(** ** Concrete runs *)

(** A base value, an optimistic value in layer 5 and a tombstone in the
    newer layer 7: the tombstone is what [get] returns. *)
Lemma get_most_recent_layer_wins_witness :
  get (run [CallSet "k" (Some 1) None;
            CallSet "k" (Some 2) (Some 5);
            CallSet "k" None (Some 7)]) "k" = Return (@None Z).
Proof.
  set (cs := [CallSet "k" (Some 1) None; CallSet "k" (Some 2) (Some 5);
              CallSet "k" None (Some 7)]).
  destruct (get_most_recent_layer_wins cs "k") as (Hfirst & _ & _).
  apply (Hfirst 7 {[ "k" := None ]}); [reflexivity | reflexivity |].
  intros L' Hne (layer & Hl & _).
  destruct (reachable_inv _ (reachable_run cs)) as [[_ Hopen] _].
  assert (L' ∈ keys (run cs)) as Hin by (apply Hopen; by exists layer).
  change (keys (run cs)) with [7; 5] in Hin.
  apply elem_of_cons in Hin as [->|Hin]; [done|].
  apply list_elem_of_singleton in Hin as ->.
  exists 2%nat, 1%nat. split_and!; [reflexivity | reflexivity | lia].
Defined.
(** Layer id [0] is a number, not [null], and yet the write goes to [base]
    and opens no overlay. *)
Lemma set_layer_zero_counterexample :
  ¬ writes_layer (@make Z) "k" (Some 1) 0.
Proof.
  intros [(layer & Hl & _) _]. vm_compute in Hl. discriminate.
Qed.

Lemma set_writes_layer_or_base_witness :
  keys (set (@make Z) "k" None (Some 7)) = [7]
  ∧ base (set (@make Z) "k" (Some 1) None) = <["k" := 1]> ∅.
Proof.
  destruct (set_writes_layer_or_base (@make Z) "k" None (Some 7)) as [Hlayer _].
  destruct (Hlayer 7 eq_refl ltac:(lia)) as (_ & _ & _ & Hkeys).
  destruct (set_writes_layer_or_base (@make Z) "k" (Some 1) None) as [_ Hbase].
  destruct (Hbase (or_introl eq_refl)) as (_ & _ & Hb).
  split; [exact Hkeys | exact Hb].
Defined.

(** Two ways in which the round trip fails on some container: a newer layer
    (7) that has the key hides the write into layer 5, and layer id 0 writes
    into [base], where [clear] cannot take it back. *)
Lemma isolation_counterexample :
  ¬ isolated (run [CallSet "k" (Some 10) (Some 5);
                   CallSet "k" (Some 20) (Some 7)]) "k" (Some 1) (Some 2) 5
  ∧ ¬ isolated (@make Z) "k" (Some 1) (Some 2) 0.
Proof.
  split.
  - intros [Hget _]. vm_compute in Hget. discriminate.
  - intros [_ Hget]. vm_compute in Hget. discriminate.
Qed.

(** Layer 3 is open and holds another key; the round trip through layer 7
    on key [k] is isolated. *)
Lemma optimistic_write_isolated_witness :
  isolated (set (@make Z) "other" (Some 5) (Some 3)) "k" (Some 1) (Some 2) 7.
Proof.
  assert (wf (set (@make Z) "other" (Some 5) (Some 3))) as Hwf
    by apply wf_set, wf_make.
  apply optimistic_write_isolated; [exact Hwf | lia |].
  intros L' _ Hopen (layer & Hl & [v Hv]).
  apply (wf_open _ Hwf) in Hopen.
  change (keys (set make "other" (Some 5) (Some 3))) with [3] in Hopen.
  apply list_elem_of_singleton in Hopen as ->.
  vm_compute in Hl. injection Hl as <-. vm_compute in Hv. discriminate.
Defined.

Lemma one_overlay_per_layer_witness :
  set (set (@make Z) "a" (Some 1) (Some 7)) "b" None (Some 7)
  = {| optimistic := <[7 := <["b" := None]> (<["a" := Some 1]> ∅)]>
                       (optimistic (set (@make Z) "a" (Some 1) (Some 7)));
       base := ∅;
       keys := [7] |}.
Proof.
  assert (reachable (set (@make Z) "a" (Some 1) (Some 7))) as Hreach
    by (constructor; constructor).
  destruct (one_overlay_per_layer _ Hreach) as [_ Hmerge].
  destruct (Hmerge 7 (<["a" := Some 1]> ∅) "b" None) as [Hset _];
    [reflexivity|].
  exact Hset.
Defined.

Lemma clear_removes_layer_witness :
  keys (clear (run [CallSet "a" (Some 1) (Some 7);
                    CallSet "a" (Some 2) (Some 9);
                    CallSet "a" (Some 3) (Some 8)]) 9) = [8; 7]
  ∧ clear (@make Z) 9 = make.
Proof.
  set (cs := [CallSet "a" (Some 1) (Some 7); CallSet "a" (Some 2) (Some 9);
              CallSet "a" (Some 3) (Some 8)]).
  destruct (reachable_inv _ (reachable_run cs)) as [Hwf _].
  destruct (clear_removes_layer (run cs) 9 Hwf) as (_ & _ & _ & Hkeys & _).
  destruct (clear_removes_layer (@make Z) 9 wf_make) as (_ & Hnoop & _).
  split; [exact Hkeys | apply Hnoop].
  intros [layer Hl]. unfold make, makeDict in Hl. simpl in Hl.
  by rewrite lookup_empty in Hl.
Defined.

Lemma keys_list_open_layers_witness :
  newer (opened_at [CallSet "a" (Some 1) (Some 7);
                    CallClear 7;
                    CallSet "a" (Some 2) (Some 9);
                    CallSet "a" (Some 3) (Some 7)]) 7 9
  ∧ ∃ i : nat,
      indexOf (keys (run [CallSet "a" (Some 1) (Some 7);
                          CallClear 7;
                          CallSet "a" (Some 2) (Some 9);
                          CallSet "a" (Some 3) (Some 7)])) 9 = Z.of_nat i
      ∧ ∀ j, keys (run [CallSet "a" (Some 1) (Some 7);
                        CallClear 7;
                        CallSet "a" (Some 2) (Some 9);
                        CallSet "a" (Some 3) (Some 7)]) !! j = Some 9 ↔ j = i.
Proof.
  set (cs := [CallSet "a" (Some 1) (Some 7); CallClear 7;
              CallSet "a" (Some 2) (Some 9); CallSet "a" (Some 3) (Some 7)]).
  destruct (keys_list_open_layers cs) as (_ & _ & _ & Horder & _ & Hpos).
  split.
  - apply (Horder 0%nat 1%nat); [lia | reflexivity | reflexivity].
  - apply Hpos. by exists (<["a" := Some 2]> ∅).
Defined.

End MapProps.

(* ===================================================================== *)
(** * Properties of the schema predicates *)
(* ===================================================================== *)

Module SchemaProps.
Import Schema.

Section Find.
Context {A : Type} (f : A → bool).

Lemma find_first (l : list A) (x : A) :
  List.find f l = Some x ↔
  ∃ before after,
    l = before ++ x :: after ∧ f x = true ∧
    ∀ y, y ∈ before → f y = false.
Proof.
  induction l as [|a l IH]; simpl.
  - split; [done|]. intros (before & after & Hl & _).
    by destruct before.
  - destruct (f a) eqn:Hfa.
    + split.
      * intros [= ->]. exists [], l.
        split_and!; [done | done | by intros y ?%elem_of_nil].
      * intros (before & after & Hl & Hfx & Hbefore).
        destruct before as [|b before]; simplify_eq/=; [done|].
        rewrite Hbefore in Hfa by (by left). done.
    + rewrite IH. split.
      * intros (before & after & -> & Hfx & Hbefore).
        exists (a :: before), after. split_and!; [done | done |].
        intros y [->|?]%elem_of_cons; auto.
      * intros (before & after & Hl & Hfx & Hbefore).
        destruct before as [|b before]; simplify_eq/=; [congruence|].
        exists before, after. split_and!; [done | done |].
        intros y Hy. apply Hbefore. by right.
Qed.

Lemma find_absent (l : list A) :
  List.find f l = None ↔ ∀ y, y ∈ l → f y = false.
Proof.
  induction l as [|a l IH]; simpl.
  - split; [by intros _ y ?%elem_of_nil | done].
  - destruct (f a) eqn:Hfa.
    + split; [done|]. intros Hall. rewrite Hall in Hfa by (by left). done.
    + rewrite IH. split.
      * intros Hall y [->|?]%elem_of_cons; auto.
      * intros Hall y Hy. apply Hall. by right.
Qed.
End Find.

Lemma non_null_kind field :
  Kind_eqb (type_kind (field_type field)) NON_NULL_TYPE = true ↔ non_null field.
Proof.
  unfold non_null. destruct (field_type field); simpl; split;
    try done; try (by intros [? ?]); eauto.
Qed.

Lemma is_field_named_eq fieldName field :
  is_field_named fieldName field = true ↔ field_name field = fieldName.
Proof. unfold is_field_named. apply String.eqb_eq. Qed.

Lemma is_object_named_true typename node :
  is_object_named typename node = true ↔
  ∃ fields, node = ObjectTypeDefinition typename fields.
Proof.
  destruct node as [n fields|n fields]; simpl.
  - rewrite String.eqb_eq. split.
    + intros ->. by exists fields.
    + by intros (fields' & [= -> _]).
  - split; [done | by intros (fields' & ?)].
Qed.

Lemma defines_find doc typename node :
  List.find (is_object_named typename) (definitions doc) = Some node
  ↔ defines doc typename node.
Proof.
  rewrite find_first. unfold defines. split.
  - intros (before & after & Hl & Hnode & Hbefore).
    apply is_object_named_true in Hnode as [fields ->].
    exists before, after, fields. split_and!; [done | done |].
    intros fields' Hin. specialize (Hbefore _ Hin). simpl in Hbefore.
    by rewrite String.eqb_refl in Hbefore.
  - intros (before & after & fields & Hl & -> & Hbefore).
    exists before, after. split_and!; [done | apply String.eqb_refl |].
    intros n Hin. apply not_true_is_false.
    intros [fields' ->]%is_object_named_true. by apply (Hbefore fields').
Qed.

Lemma declares_find node fieldName field :
  List.find (is_field_named fieldName) (default [] (node_fields node))
    = Some field
  ↔ declares node fieldName field.
Proof.
  rewrite find_first. unfold declares.
  split; intros (before & after & Hl & Hf & Hbefore);
    exists before, after; split_and!; try done.
  - by apply is_field_named_eq.
  - intros f Hin. specialize (Hbefore f Hin).
    rewrite <- is_field_named_eq. by rewrite Hbefore.
  - by apply is_field_named_eq.
  - intros f Hin. specialize (Hbefore f Hin).
    rewrite <- is_field_named_eq in Hbefore. by destruct (is_field_named _ f).
Qed.

Lemma defines_functional doc typename node1 node2 :
  defines doc typename node1 → defines doc typename node2 → node1 = node2.
Proof. rewrite <- !defines_find. congruence. Qed.

Lemma declares_functional node fieldName field1 field2 :
  declares node fieldName field1 → declares node fieldName field2 →
  field1 = field2.
Proof. rewrite <- !declares_find. congruence. Qed.

Lemma isFieldNullable_false this doc typename fieldName :
  schema this = Some doc →
  (isFieldNullable this typename fieldName = false ↔
   ∃ node field,
     defines doc typename node ∧ declares node fieldName field ∧
     non_null field).
Proof.
  intros Hs. unfold isFieldNullable. rewrite Hs.
  destruct (List.find _ (definitions doc)) as [node|] eqn:Hnode.
  - apply defines_find in Hnode.
    destruct (List.find _ (default [] _)) as [field|] eqn:Hfield.
    + apply declares_find in Hfield.
      rewrite negb_false_iff, non_null_kind. split.
      * intros Hnn. by exists node, field.
      * intros (node' & field' & Hd & Hf & Hnn).
        rewrite <- (defines_functional _ _ _ _ Hnode Hd) in Hf.
        by rewrite (declares_functional _ _ _ _ Hfield Hf).
    + split; [done|]. intros (node' & field' & Hd & Hf & _).
      rewrite <- (defines_functional _ _ _ _ Hnode Hd) in Hf.
      apply declares_find in Hf. congruence.
  - split; [done|]. intros (node' & _ & Hd & _).
    apply defines_find in Hd. congruence.
Qed.

Lemma new_SchemaPredicates_schema parseSchema s this :
  new_SchemaPredicates parseSchema s = Return this →
  match s with
  | Some i => parseSchema i = Return (default (mkDocument []) (schema this))
              ∧ is_Some (schema this)
  | None => schema this = None
  end.
Proof.
  unfold new_SchemaPredicates. destruct s as [i|].
  - destruct (parseSchema i) as [doc|]; simpl; [|done].
    destruct (foldl _ _ _); simpl; [|done].
    intros [= <-]. simpl. eauto.
  - by intros [= <-].
Qed.

Lemma getRootKey_constructed parseSchema s this name :
  new_SchemaPredicates parseSchema s = Return this →
  getRootKey this name
  = match s with
    | Some i => Schema.name <$> declared i name
    | None => Some (conventional name)
    end.
Proof.
  unfold new_SchemaPredicates. destruct s as [i|].
  - destruct (parseSchema i) as [doc|]; simpl; [|done].
    destruct (foldl _ _ _); simpl; [|done].
    intros [= <-]. destruct name; simpl; by destruct (_ (__schema i)).
  - intros [= <-]. by destruct name.
Qed.

Lemma defines_object doc typename node :
  defines doc typename node →
  node ∈ definitions doc ∧
  ∃ fields, node = ObjectTypeDefinition typename fields.
Proof.
  intros (before & after & fields & Hl & -> & _). split.
  - rewrite Hl, elem_of_app. right. by left.
  - by exists fields.
Qed.

Lemma declares_member node fieldName field :
  declares node fieldName field →
  field ∈ default [] (node_fields node) ∧ field_name field = fieldName.
Proof.
  intros (before & after & Hl & Hname & _). split; [|done].
  rewrite Hl, elem_of_app. right. by left.
Qed.

Lemma defines_unique doc typename fields :
  unique_names doc →
  ObjectTypeDefinition typename fields ∈ definitions doc →
  defines doc typename (ObjectTypeDefinition typename fields).
Proof.
  intros [Htypes _] Hin.
  destruct (List.find (is_object_named typename) (definitions doc))
    as [node|] eqn:Hfind.
  - apply defines_find in Hfind.
    destruct (defines_object _ _ _ Hfind) as [Hnin [fields' ->]].
    by rewrite <- (Htypes typename fields' fields Hnin Hin).
  - rewrite find_absent in Hfind. specialize (Hfind _ Hin). simpl in Hfind.
    by rewrite String.eqb_refl in Hfind.
Qed.

Lemma declares_unique doc node fieldName field :
  unique_names doc → node ∈ definitions doc →
  field ∈ default [] (node_fields node) → field_name field = fieldName →
  declares node fieldName field.
Proof.
  intros [_ Hfields] Hnode Hin Hname.
  destruct (List.find (is_field_named fieldName) (default [] (node_fields node)))
    as [field'|] eqn:Hfind.
  - apply declares_find in Hfind.
    destruct (declares_member _ _ _ Hfind) as [Hin' Hname'].
    by rewrite (Hfields node field field' Hnode Hin Hin') by congruence.
  - rewrite find_absent in Hfind. specialize (Hfind _ Hin).
    apply is_field_named_eq in Hname. congruence.
Qed.

(** C8 (amended).  [isFieldNullable] of a constructed [SchemaPredicates]
    returns [true] when no schema was given.  With a schema, it returns
    [false] exactly when the document defines [typename] as an object type
    with a field [fieldName] of a non-null type, and [true], without an
    error, when no object type of that name, or no such field on it, is
    found; an interface, union or input object type of that name counts as
    not found.  The definition of [typename] is the first object type
    definition of that name; in a document whose names are unique that is
    any member of [definitions]. *)
Theorem isFieldNullable_permissive parseSchema s this typename fieldName :
  new_SchemaPredicates parseSchema s = Return this →
  (s = None → isFieldNullable this typename fieldName = true)
  ∧ (∀ i, s = Some i →
       ∃ doc, parseSchema i = Return doc ∧
         (isFieldNullable this typename fieldName = false ↔
            ∃ node field,
              defines doc typename node ∧ declares node fieldName field ∧
              non_null field)
         ∧ ((∀ node, ¬ defines doc typename node) →
            isFieldNullable this typename fieldName = true)
         ∧ (∀ node, defines doc typename node →
              (∀ field, ¬ declares node fieldName field) →
              isFieldNullable this typename fieldName = true)
         ∧ (unique_names doc →
            (isFieldNullable this typename fieldName = false ↔
               ∃ fields field,
                 ObjectTypeDefinition typename fields ∈ definitions doc ∧
                 field ∈ default [] fields ∧
                 field_name field = fieldName ∧ non_null field))).
Proof.
  intros Hnew. pose proof (new_SchemaPredicates_schema _ _ _ Hnew) as Hschema.
  split.
  - intros ->. unfold isFieldNullable. by rewrite Hschema.
  - intros i ->. destruct Hschema as [Hparse [doc Hdoc]].
    rewrite Hdoc in Hparse. simpl in Hparse.
    exists doc. split; [done|].
    pose proof (isFieldNullable_false this doc typename fieldName Hdoc) as Hiff.
    split_and!.
    + done.
    + intros Hnone. apply not_false_iff_true. rewrite Hiff.
      intros (node & _ & Hd & _). by apply (Hnone node).
    + intros node Hd Hnone. apply not_false_iff_true. rewrite Hiff.
      intros (node' & field & Hd' & Hf & _).
      rewrite <- (defines_functional _ _ _ _ Hd Hd') in Hf.
      by apply (Hnone field).
    + intros Huniq. rewrite Hiff. split.
      * intros (node & field & Hd & Hf & Hnn).
        destruct (defines_object _ _ _ Hd) as [Hin [fields ->]].
        destruct (declares_member _ _ _ Hf) as [Hfin Hname].
        by exists fields, field.
      * intros (fields & field & Hin & Hfin & Hname & Hnn).
        exists (ObjectTypeDefinition typename fields), field.
        split_and!; [by apply defines_unique | | done].
        by apply (declares_unique doc).
Qed.

Lemma isFieldNullable_permissive_witness :
  isFieldNullable query_only_predicates "Query" "version" = false
  ∧ isFieldNullable query_only_predicates "Node" "id" = true.
Proof.
  split.
  - destruct (isFieldNullable_permissive parse_query_only (Some query_only)
                query_only_predicates "Query" "version" eq_refl) as [_ Hsome].
    destruct (Hsome query_only eq_refl) as (doc & [= <-] & Hiff & _).
    apply Hiff.
    exists (ObjectTypeDefinition "Query"
              (Some [ {| field_name := "todos";
                         field_type := ListType (NamedType "Todo") |};
                      {| field_name := "version";
                         field_type := NonNullType (NamedType "Int") |} ])),
           {| field_name := "version";
              field_type := NonNullType (NamedType "Int") |}.
    split_and!.
    + apply defines_find. reflexivity.
    + apply declares_find. reflexivity.
    + by exists (NamedType "Int").
  - destruct (isFieldNullable_permissive parse_query_only (Some query_only)
                query_only_predicates "Node" "id" eq_refl) as [_ Hsome].
    destruct (Hsome query_only eq_refl) as (doc & [= <-] & _ & Hnotype & _).
    apply Hnotype. intros node Hd%defines_find. vm_compute in Hd. discriminate.
Defined.

(** The document defines the interface [Node] with the non-null field [id],
    and [isFieldNullable('Node', 'id')] is [true]: only object type
    definitions are searched. *)
Lemma isFieldNullable_interface_counterexample :
  new_SchemaPredicates parse_query_only (Some query_only)
    = Return query_only_predicates
  ∧ schema query_only_predicates = Some query_only_document
  ∧ defines_non_null query_only_document "Node" "id"
  ∧ isFieldNullable query_only_predicates "Node" "id" = true.
Proof.
  split_and!; [done | done | | done].
  exists (OtherDefinition (Some "Node")
            (Some [ {| field_name := "id";
                       field_type := NonNullType (NamedType "ID") |} ])),
         {| field_name := "id"; field_type := NonNullType (NamedType "ID") |}.
  split_and!; try done.
  - simpl. right. by left.
  - by left.
  - by exists (NamedType "ID").
Qed.

(** C7.  With a schema that declares no mutation type, the constructor
    stores the unset value itself in [rootFields.mutation], and
    [getRootKey('mutation')] returns it instead of the conventional name
    [Mutation], which is what the specified behaviour, and the [string] type
    declared for [rootFields], call for. *)
Theorem getRootKey_without_mutation_type :
  new_SchemaPredicates parse_query_only (Some query_only)
    = Return query_only_predicates
  ∧ getRootKey query_only_predicates OpQuery = Some "Query"
  ∧ getRootKey query_only_predicates OpMutation = None
  ∧ getRootKey query_only_predicates OpSubscription = None
  ∧ root_key_specified (Some query_only) OpMutation = "Mutation".
Proof. by split_and!. Qed.

End SchemaProps.

(* ===================================================================== *)
(** * Properties of the store *)
(* ===================================================================== *)

Module StoreProps.
Import StoreModel.

Section Facts.
Context {Variables : Type}.
Variable keyOfEntity : Entity → option string.
Variable keyOfField : string → option Variables → string.
Variable joinKeys : string → string → string.

Lemma truthy_nonempty (s : string) : truthy s = true ↔ s ≠ EmptyString.
Proof.
  unfold truthy. rewrite negb_true_iff.
  split.
  - intros Hs ->. by rewrite String.eqb_refl in Hs.
  - intros Hs. by apply String.eqb_neq.
Qed.

(** The array branch: one result slot per link slot, in place. *)
Lemma resolve_slots this (link : list (option string)) :
  length (resolve_slot this <$> link) = length link
  ∧ (∀ i key, link !! i = Some (Some key) →
       (resolve_slot this <$> link) !! i = Some (find this key))
  ∧ (∀ i, link !! i = Some None →
       (resolve_slot this <$> link) !! i = Some None).
Proof.
  split_and!.
  - apply length_fmap.
  - intros i key Hi. by rewrite list_lookup_fmap, Hi.
  - intros i Hi. by rewrite list_lookup_fmap, Hi.
Qed.

(** C1 (amended).  With [fieldKey = keyOfField(f, a or null)],
    [resolveProperty] returns the stored value when [parent] has the key
    with a value other than [undefined], and [null] when [parent] lacks the
    key.  When the key is present with [undefined]: [null] if the parent
    has no entity key; for an array link, an array of the same length in
    which every non-null key is replaced by what [find] returns for it
    ([null] for a missing entity) and every [null] stays where it is; for a
    scalar link that is a non-empty string, what [find] returns for it; and
    [null] when the link is the empty string, [null] or unset. *)
Theorem resolveProperty_cases this (parent : Entity) field args :
  (∀ fieldValue,
      parent !! keyOfField field args = Some (Some fieldValue) →
      resolveProperty keyOfEntity keyOfField joinKeys this parent field args
      = RField fieldValue)
  ∧ (parent !! keyOfField field args = None →
     resolveProperty keyOfEntity keyOfField joinKeys this parent field args
     = RNull)
  ∧ (parent !! keyOfField field args = Some None →
     (keyOfEntity parent = None →
      resolveProperty keyOfEntity keyOfField joinKeys this parent field args
      = RNull)
     ∧ (∀ entityKey, keyOfEntity parent = Some entityKey →
          (∀ link,
              readLink this (joinKeys entityKey (keyOfField field args))
                = Some (LKeys link) →
              ∃ r,
                resolveProperty keyOfEntity keyOfField joinKeys
                  this parent field args = REntities r ∧
                length r = length link ∧
                (∀ i key, link !! i = Some (Some key) →
                   r !! i = Some (find this key)) ∧
                (∀ i, link !! i = Some None → r !! i = Some None))
          ∧ (∀ link,
               readLink this (joinKeys entityKey (keyOfField field args))
                 = Some (LKey link) →
               link ≠ EmptyString →
               resolveProperty keyOfEntity keyOfField joinKeys
                 this parent field args = found (find this link))
          ∧ (readLink this (joinKeys entityKey (keyOfField field args))
               = Some (LKey EmptyString)
             ∨ readLink this (joinKeys entityKey (keyOfField field args))
               = Some LNull
             ∨ readLink this (joinKeys entityKey (keyOfField field args))
               = None →
             resolveProperty keyOfEntity keyOfField joinKeys
               this parent field args = RNull))).
Proof.
  unfold resolveProperty. split_and!.
  - by intros fieldValue ->.
  - by intros ->.
  - intros ->. split; [by intros ->|].
    intros entityKey ->. split_and!.
    + intros link ->. eexists. split; [done|]. apply resolve_slots.
    + intros link -> Hne. by rewrite (proj2 (truthy_nonempty link) Hne).
    + by intros [-> | [-> | ->]].
Qed.

(** C9.  [remove(k)] deletes the record under [k] and nothing else: the
    links map and every other record are as before.  A later
    [resolveProperty] through a link that still names [k] returns [null]
    for a scalar link, and for an array link an array of the same length
    with [null] at the slots that name [k] and the other slots resolved
    as before. *)
Theorem remove_leaves_links_dangling this key :
  links (remove this key) = links this
  ∧ (∀ other, other ≠ key →
       records (remove this key) !! other = records this !! other)
  ∧ find (remove this key) key = None
  ∧ (∀ (parent : Entity) field args entityKey,
       parent !! keyOfField field args = Some None →
       keyOfEntity parent = Some entityKey →
       (readLink this (joinKeys entityKey (keyOfField field args))
          = Some (LKey key) →
        resolveProperty keyOfEntity keyOfField joinKeys
          (remove this key) parent field args = RNull)
       ∧ (∀ link,
            readLink this (joinKeys entityKey (keyOfField field args))
              = Some (LKeys link) →
            ∃ r,
              resolveProperty keyOfEntity keyOfField joinKeys
                (remove this key) parent field args = REntities r ∧
              length r = length link ∧
              (∀ i, link !! i = Some (Some key) → r !! i = Some None) ∧
              (∀ i other, link !! i = Some (Some other) → other ≠ key →
                 r !! i = Some (find this other)) ∧
              (∀ i, link !! i = Some None → r !! i = Some None))).
Proof.
  assert (find (remove this key) key = None) as Hgone
    by apply lookup_delete_eq.
  assert (∀ other, other ≠ key →
            find (remove this key) other = find this other) as Hkept
    by (intros other Hne; by apply lookup_delete_ne).
  split_and!; [done | exact Hkept | done |].
  intros parent field args entityKey Hfield Hkey.
  unfold resolveProperty, readLink. rewrite Hfield, Hkey. simpl.
  split.
  - unfold readLink. intros ->. rewrite Hgone. by destruct (truthy key).
  - unfold readLink. intros link ->. eexists. split; [done|].
    destruct (resolve_slots (remove this key) link) as (Hlen & Hsome & Hnone).
    split_and!; [done| | |done].
    + intros i Hi. by rewrite (Hsome i key Hi), Hgone.
    + intros i other Hi Hne. by rewrite (Hsome i other Hi), Hkept.
Qed.

End Facts.

(** A record under the empty key, named by a scalar link: the method answers
    [null], the wording of the specification the record. *)
Lemma resolveProperty_empty_link_counterexample :
  resolveProperty keyOfEntity keyOfField joinKeys blank_key todo "author" None
    = RNull
  ∧ resolveProperty_specified keyOfEntity keyOfField joinKeys
      blank_key todo "author" None
    = REntity empty_record.
Proof. split; by vm_compute. Qed.

Lemma resolveProperty_cases_witness :
  resolveProperty keyOfEntity keyOfField joinKeys todos todo "text" None
    = RField (FScalar (SPrimitive (PString "a")))
  ∧ resolveProperty keyOfEntity keyOfField joinKeys todos todo "done" None
    = RNull
  ∧ resolveProperty keyOfEntity keyOfField joinKeys todos todo "author" None
    = REntity (user "2").
Proof.
  split_and!.
  - destruct (resolveProperty_cases keyOfEntity keyOfField joinKeys
                todos todo "text" None) as (Hvalue & _).
    by apply Hvalue.
  - destruct (resolveProperty_cases keyOfEntity keyOfField joinKeys
                todos todo "done" None) as (_ & Habsent & _).
    by apply Habsent.
  - destruct (resolveProperty_cases keyOfEntity keyOfField joinKeys
                todos todo "author" None) as (_ & _ & Hlink).
    destruct (Hlink eq_refl) as [_ Hkeyed].
    destruct (Hkeyed "Todo:1" eq_refl) as (_ & Hscalar & _).
    by apply (Hscalar "User:2").
Defined.

Lemma remove_leaves_links_dangling_witness :
  resolveProperty keyOfEntity keyOfField joinKeys
    (remove todos "User:2") todo "author" None = RNull
  ∧ ∃ r, resolveProperty keyOfEntity keyOfField joinKeys
           (remove todos "User:2") todo "watchers" None = REntities r
         ∧ length r = 3%nat
         ∧ r !! 0%nat = Some None
         ∧ r !! 2%nat = Some (Some (user "3")).
Proof.
  destruct (remove_leaves_links_dangling keyOfEntity keyOfField joinKeys
              todos "User:2") as (_ & _ & _ & Hdangling).
  split.
  - destruct (Hdangling todo "author" None "Todo:1" eq_refl eq_refl)
      as [Hscalar _].
    by apply Hscalar.
  - destruct (Hdangling todo "watchers" None "Todo:1" eq_refl eq_refl)
      as [_ Harray].
    destruct (Harray [Some "User:2"; None; Some "User:3"] eq_refl)
      as (r & Hr & Hlen & Hremoved & Hother & _).
    exists r. split_and!; [done | done | by apply Hremoved |].
    by apply (Hother 2%nat "User:3").
Defined.

End StoreProps.

(* ===================================================================== *)
(** * Further laws of the layered map *)
(* ===================================================================== *)

Module MapLaws.
Import LayeredMap MapProps.

Section Laws.
Context {T : Type}.
Implicit Types (map : KVMap T) (key : string) (value fromBase v : option T)
  (L : Z) (ks : list Z) (layer : gmap string (option T))
  (o : gmap Z (gmap string (option T))).

Lemma KVMap_eq (a b : KVMap T) :
  optimistic a = optimistic b → base a = base b → keys a = keys b → a = b.
Proof. destruct a, b; simpl. by intros -> -> ->. Qed.

(** The loop of [get] only looks at the slot of [key] in the overlays named
    by [ks]. *)
Lemma scan_ext o1 o2 ks key fromBase :
  (∀ L, L ∈ ks → (.!! key) <$> (o1 !! L) = (.!! key) <$> (o2 !! L)) →
  scan o1 ks key fromBase = scan o2 ks key fromBase.
Proof.
  induction ks as [|L ks IH]; intros Hsame; simpl; [done|].
  pose proof (Hsame L ltac:(by left)) as HL.
  destruct (o1 !! L) as [l1|], (o2 !! L) as [l2|]; simplify_eq/=; [|done].
  rewrite HL. destruct (l2 !! key); [done|].
  apply IH. intros L' HL'. apply Hsame. by right.
Qed.

Lemma scan_remove_miss o ks1 ks2 L key fromBase :
  L ∉ ks1 → L ∉ ks2 → misses o key L →
  scan o (ks1 ++ L :: ks2) key fromBase
  = scan (delete L o) (ks1 ++ ks2) key fromBase.
Proof.
  intros H1 H2 (layer & Hl & Hk).
  induction ks1 as [|y ks1 IH]; simpl.
  - rewrite Hl, Hk. apply scan_ext. intros L' HL'.
    rewrite lookup_delete_ne; [done|]. by intros ->.
  - apply not_elem_of_cons in H1 as [Hy H1].
    rewrite lookup_delete_ne by done.
    destruct (o !! y) as [ly|]; [|done].
    destruct (ly !! key); [done|]. by apply IH.
Qed.

Lemma scan_holder_ignores_base o ks key L fb1 fb2 :
  (∀ L', L' ∈ ks → is_Some (o !! L')) →
  L ∈ ks → (∃ layer, o !! L = Some layer ∧ is_Some (layer !! key)) →
  scan o ks key fb1 = scan o ks key fb2.
Proof.
  intros Hopen Hin (layer & Hl & [w Hw]).
  destruct (scan_cases o ks key fb1 Hopen)
    as [(ks1 & L0 & ks2 & layer0 & v0 & -> & Hm & Hl0 & Hk0 & Hs)|[Hm _]].
  - rewrite Hs. rewrite scan_skip by done.
    symmetry. by apply (scan_hit _ _ _ _ _ layer0).
  - destruct (Hm L Hin) as (layer' & Hl' & Hk'). congruence.
Qed.

(** X1.  A [set] on one key, into any layer or into [base], leaves the
    result of [get] for every other key as it was. *)
Theorem set_leaves_other_keys map key key' value ok :
  wf map → key' ≠ key →
  get (set map key value ok) key' = get map key'.
Proof.
  intros [Hnd Hopen] Hne. unfold get.
  destruct ok as [L|]; [destruct (decide (L = 0)) as [->|HL]|].
  - rewrite set_base by auto. simpl.
    destruct value; by rewrite ?lookup_insert_ne, ?lookup_delete_ne.
  - destruct (optimistic map !! L) as [layer|] eqn:Hl.
    + rewrite (set_open_layer _ _ _ _ layer) by done. simpl.
      apply scan_ext. intros L' _.
      destruct (decide (L = L')) as [<-|HL'].
      * rewrite lookup_insert_eq, Hl. simpl. by rewrite lookup_insert_ne.
      * by rewrite lookup_insert_ne.
    + rewrite set_fresh_layer by done. simpl.
      rewrite lookup_insert_eq, lookup_singleton_ne by done.
      apply scan_ext. intros L' HL'.
      rewrite lookup_insert_ne; [done|]. intros ->.
      apply Hopen in HL' as [? ?]. congruence.
  - rewrite set_base by auto. simpl.
    destruct value; by rewrite ?lookup_insert_ne, ?lookup_delete_ne.
Qed.

(** X2.  [clear] of a layer whose overlay does not have the key (or that is
    not open) leaves the result of [get] for that key as it was. *)
Theorem clear_leaves_unheld_keys map L key :
  wf map → ¬ holds map L key →
  get (clear map L) key = get map key.
Proof.
  intros Hwf Hnot. pose proof Hwf as [Hnd Hopen].
  destruct (decide (L ∈ keys map)) as [Hin|Hout];
    [|by rewrite clear_absent].
  destruct (first_occurrence _ _ Hin) as (ks1 & ks2 & Hks & Hfresh).
  rewrite (clear_present _ _ ks1 ks2) by done.
  unfold get. simpl. rewrite Hks. symmetry.
  rewrite Hks in Hnd.
  apply NoDup_app in Hnd as (_ & _ & [Hfresh2 _]%NoDup_cons).
  apply scan_remove_miss; [done..|].
  apply misses_not_holds; [by apply Hopen | done].
Qed.

Lemma set_all_snoc map writes key value L :
  set_all map (writes ++ [(key, value)]) L
  = set (set_all map writes L) key value (Some L).
Proof. unfold set_all. by rewrite foldl_snoc. Qed.

Lemma set_all_shape map writes L :
  L ≠ 0 → optimistic map !! L = None → writes ≠ [] →
  ∃ layer,
    set_all map writes L
    = {| optimistic := <[L := layer]> (optimistic map);
         base := base map;
         keys := L :: keys map |}.
Proof.
  intros HL Hnone.
  induction writes as [|[key value] writes IH] using rev_ind; [done|].
  intros _. rewrite set_all_snoc.
  destruct writes as [|w writes].
  - exists {[key := value]}. by apply set_fresh_layer.
  - destruct IH as [layer Hshape]; [done|]. rewrite Hshape.
    exists (<[key := value]> layer).
    rewrite (set_open_layer _ _ _ _ layer); simpl;
      [|done|by rewrite lookup_insert_eq].
    by rewrite insert_insert_eq.
Qed.

(** X3.  Rollback is exact: whatever is written into a layer that was not
    open, [clear] of that layer gives back the container as it was before
    the first of the writes. *)
Theorem clear_rolls_back_layer map writes L :
  wf map → L ≠ 0 → ¬ is_open map L →
  clear (set_all map writes L) L = map.
Proof.
  intros [Hnd Hopen] HL Hclosed.
  assert (optimistic map !! L = None) as Hnone
    by (by apply eq_None_not_Some).
  destruct writes as [|w writes].
  - apply clear_absent. by rewrite Hopen.
  - destruct (set_all_shape map (w :: writes) L) as [layer ->]; try done.
    rewrite (clear_present _ _ [] (keys map));
      [|done|apply not_elem_of_nil].
    apply KVMap_eq; simpl; [|done..].
    by rewrite delete_insert_eq, delete_id.
Qed.

Lemma get_set_layer_first map key value L :
  wf map → L ≠ 0 →
  (∀ L', L' ≠ L → is_open map L' → ¬ holds map L' key) →
  get (set map key value (Some L)) key = Return value.
Proof.
  intros Hwf HL Hothers.
  assert (wf (set map key value (Some L))) as Hwf' by (by apply wf_set).
  assert (L ∈ keys (set map key value (Some L))) as Hin.
  { apply (wf_open _ Hwf'). unfold is_open.
    rewrite set_layer_self by done. eauto. }
  destruct (first_occurrence _ _ Hin) as (ks1 & ks2 & Hks & Hfresh).
  eapply (get_first_holder _ key ks1 L ks2); try done.
  - intros L' HL' (layer & Hl & Hk).
    assert (L' ≠ L) as Hne by (by intros ->).
    rewrite set_layer_other in Hl by done.
    apply (Hothers L' Hne); by exists layer.
  - by apply set_layer_self.
  - by rewrite lookup_insert_eq.
Qed.

(** X4.  Layer ordering: after a write of the key into layer [L1] and a
    write into a layer [L2] that was not open, [get] returns the value of
    [L2]; after [clear] of [L2] it returns the value of [L1], when no other
    open overlay has the key. *)
Theorem newer_layer_shadows_older map key v1 v2 L1 L2 :
  wf map → L1 ≠ 0 → L2 ≠ 0 → L1 ≠ L2 → ¬ is_open map L2 →
  (∀ L', L' ≠ L1 → is_open map L' → ¬ holds map L' key) →
  get (set (set map key v1 (Some L1)) key v2 (Some L2)) key = Return v2
  ∧ get (clear (set (set map key v1 (Some L1)) key v2 (Some L2)) L2) key
    = Return v1.
Proof.
  intros Hwf H1 H2 Hne Hclosed Hothers.
  assert (optimistic (set map key v1 (Some L1)) !! L2 = None) as Hnone.
  { rewrite set_layer_other by congruence. by apply eq_None_not_Some. }
  split.
  - rewrite set_fresh_layer by done. unfold get. simpl.
    by rewrite lookup_insert_eq, lookup_singleton_eq.
  - rewrite set_fresh_layer by done.
    rewrite (clear_present _ _ [] (keys (set map key v1 (Some L1))));
      [|done|apply not_elem_of_nil].
    cbn [optimistic base keys app].
    rewrite delete_insert_eq, delete_id by done.
    rewrite <- (get_set_layer_first map key v1 L1 Hwf H1 Hothers).
    reflexivity.
Qed.

(** X5.  Two [clear]s commute. *)
Theorem clear_commutes map L1 L2 :
  wf map → clear (clear map L1) L2 = clear (clear map L2) L1.
Proof.
  intros Hwf.
  pose proof (wf_clear map L1 Hwf) as Hwf1.
  pose proof (wf_clear map L2 Hwf) as Hwf2.
  apply KVMap_eq.
  - rewrite !clear_optimistic by done. apply delete_delete.
  - by rewrite !clear_base.
  - rewrite !clear_keys by (done || apply wf_nodup; done).
    rewrite !list_filter_filter. apply list_filter_iff.
    intros x. split; intros [? ?]; by split.
Qed.

(** X6.  A write to [base] is read back by [get] when no open overlay has
    the key, and changes nothing that [get] returns for the key when some
    open overlay has it. *)
Theorem base_write_read_back map key value :
  wf map →
  ((∀ L, is_open map L → ¬ holds map L key) →
   get (set map key value None) key = Return value)
  ∧ (∀ L, holds map L key →
     get (set map key value None) key = get map key).
Proof.
  intros Hwf. pose proof Hwf as [Hnd Hopen]. split.
  - intros Hnone. rewrite get_no_holder.
    + by rewrite set_base_lookup.
    + by apply wf_set.
    + intros L. unfold is_open, holds. rewrite set_base by auto. simpl.
      apply Hnone.
  - intros L (layer & Hl & Hk). unfold get. rewrite set_base by auto. simpl.
    apply (scan_holder_ignores_base _ _ _ L).
    + intros L' HL'. by apply Hopen.
    + apply Hopen. by exists layer.
    + by exists layer.
Qed.

(** X7.  In a container reachable from [make()], layer id [0] is never
    open, and [clear] of it changes nothing. *)
Theorem layer_zero_never_open map :
  reachable map → ¬ is_open map 0 ∧ (0 ∉ keys map) ∧ clear map 0 = map.
Proof.
  intros [[Hnd Hopen] Hzero]%reachable_inv.
  assert (¬ is_open map 0) as Hclosed.
  { unfold is_open. rewrite Hzero. by intros [? ?]. }
  assert (0 ∉ keys map) as Hout by (by rewrite Hopen).
  split_and!; [done | done | by apply clear_absent].
Qed.

Lemma make_closed L : ¬ is_open (@make T) L.
Proof.
  intros [layer Hl]. unfold make, makeDict in Hl. simpl in Hl.
  by rewrite lookup_empty in Hl.
Qed.

End Laws.

Lemma set_leaves_other_keys_witness :
  get (set (set (@make Z) "a" (Some 1) (Some 7)) "b" (Some 2) (Some 9)) "a"
  = Return (Some 1).
Proof.
  rewrite set_leaves_other_keys; [reflexivity | | done].
  apply wf_set, wf_make.
Defined.

Lemma clear_leaves_unheld_keys_witness :
  get (clear (set (set (@make Z) "a" (Some 1) (Some 7)) "b" (Some 2) (Some 9))
         9) "a"
  = Return (Some 1).
Proof.
  rewrite clear_leaves_unheld_keys; [reflexivity | |].
  - do 2 apply wf_set. apply wf_make.
  - intros (layer & Hl & [v Hv]). vm_compute in Hl. injection Hl as <-.
    vm_compute in Hv. discriminate.
Defined.

Lemma clear_rolls_back_layer_witness :
  clear (set_all (set (@make Z) "a" (Some 1) (Some 5))
           [("a", Some 2); ("b", None); ("a", Some 3)] 7) 7
  = set (@make Z) "a" (Some 1) (Some 5).
Proof.
  apply clear_rolls_back_layer; [apply wf_set, wf_make | lia |].
  intros [layer Hl]. vm_compute in Hl. discriminate.
Defined.

Lemma newer_layer_shadows_older_witness :
  get (set (set (@make Z) "k" (Some 1) (Some 5)) "k" (Some 2) (Some 7)) "k"
  = Return (Some 2)
  ∧ get (clear (set (set (@make Z) "k" (Some 1) (Some 5)) "k" (Some 2) (Some 7))
           7) "k"
    = Return (Some 1).
Proof.
  apply newer_layer_shadows_older;
    [apply wf_make | lia | lia | lia | apply make_closed |].
  intros L' _ Hopen. by destruct (make_closed L' Hopen).
Defined.

Lemma clear_commutes_witness :
  clear (clear (set (set (@make Z) "a" (Some 1) (Some 5)) "a" None (Some 7)) 5)
    7
  = clear (clear (set (set (@make Z) "a" (Some 1) (Some 5)) "a" None (Some 7))
             7) 5.
Proof. apply clear_commutes. do 2 apply wf_set. apply wf_make. Defined.

Lemma base_write_read_back_witness :
  get (set (@make Z) "k" (Some 1) None) "k" = Return (Some 1)
  ∧ get (set (set (@make Z) "k" None (Some 7)) "k" (Some 1) None) "k"
    = Return None.
Proof.
  split.
  - destruct (base_write_read_back (@make Z) "k" (Some 1) wf_make)
      as [Hread _].
    apply Hread. intros L Hopen. by destruct (make_closed L Hopen).
  - assert (wf (set (@make Z) "k" None (Some 7))) as Hwf
      by apply wf_set, wf_make.
    destruct (base_write_read_back _ "k" (Some 1) Hwf) as [_ Hshadow].
    rewrite (Hshadow 7); [reflexivity|].
    exists {["k" := None]}. split; [reflexivity | by exists None].
Defined.

Lemma layer_zero_never_open_witness :
  clear (set (@make Z) "k" (Some 1) (Some 0)) 0
  = set (@make Z) "k" (Some 1) (Some 0).
Proof.
  apply layer_zero_never_open. constructor. constructor.
Defined.

End MapLaws.

(* ===================================================================== *)
(** * Further laws of the schema predicates *)
(* ===================================================================== *)

Module SchemaLaws.
Import Schema SchemaProps.

Lemma collect_type_Return frag type :
  collect_type (Return frag) type
  = if is_abstract type then
      match possibleTypes type with
      | Some possible => Return (<[type_name type := map name possible]> frag)
      | None => Throw
      end
    else Return frag.
Proof. reflexivity. Qed.

Lemma collect_Throw tys : foldl collect_type Throw tys = Throw.
Proof. induction tys as [|ty tys IH]; [done|]. simpl. exact IH. Qed.

Lemma collect_throws tys frag :
  foldl collect_type (Return frag) tys = Throw ↔
  ∃ type, type ∈ tys ∧ is_abstract type = true ∧ possibleTypes type = None.
Proof.
  revert frag. induction tys as [|ty tys IH]; intros frag; cbn [foldl].
  - split; [done|]. by intros (type & ?%elem_of_nil & _).
  - rewrite collect_type_Return.
    destruct (is_abstract ty) eqn:Hab;
      [destruct (possibleTypes ty) as [possible|] eqn:Hp|].
    + rewrite IH. split.
      * intros (type & Hin & Ha & Hn). exists type. split; [by right | done].
      * intros (type & [->|Hin]%elem_of_cons & Ha & Hn); [congruence|].
        by exists type.
    + rewrite collect_Throw. split; [|done]. intros _. exists ty.
      split; [by left | done].
    + rewrite IH. split.
      * intros (type & Hin & Ha & Hn). exists type. split; [by right | done].
      * intros (type & [->|Hin]%elem_of_cons & Ha & Hn); [congruence|].
        by exists type.
Qed.

(** X8.  The constructor fails exactly when a schema is given and either
    the graphql package rejects it or one of its types passes the kind test
    of the [forEach] and has no [possibleTypes]; without a schema it
    always succeeds. *)
Theorem constructor_throws parseSchema s :
  new_SchemaPredicates parseSchema s = Throw ↔
  ∃ i, s = Some i ∧
    (parseSchema i = Throw
     ∨ ∃ type, type ∈ types (__schema i) ∧
         is_abstract type = true ∧ possibleTypes type = None).
Proof.
  unfold new_SchemaPredicates. destruct s as [i|].
  - destruct (parseSchema i) as [doc|] eqn:Hparse; simpl.
    + destruct (foldl collect_type (Return ∅) (types (__schema i)))
        as [frag|] eqn:Hcollect; simpl.
      * split; [done|]. intros (i' & [= <-] & [?|Hbad]); [congruence|].
        apply (collect_throws _ ∅) in Hbad. congruence.
      * split; [|done]. intros _. exists i. split; [done|]. right.
        by apply (collect_throws _ ∅).
    + split; [|done]. intros _. exists i. split; [done | by left].
  - split; [done|]. by intros (i & ? & _).
Qed.

(** X11.  For a constructed [SchemaPredicates], [getRootKey] returns the
    conventional names when no schema was given; with a schema it returns,
    for each operation kind, the name of the type the schema declares for
    it, and the unset value when the schema declares none. *)
Theorem getRootKey_of_constructor parseSchema s this opname :
  new_SchemaPredicates parseSchema s = Return this →
  (s = None → getRootKey this opname = Some (conventional opname))
  ∧ (∀ i, s = Some i →
       getRootKey this opname = name <$> declared i opname).
Proof.
  intros Hnew. rewrite (getRootKey_constructed _ _ _ _ Hnew).
  split; [by intros -> | by intros i ->].
Qed.

Lemma constructor_throws_witness :
  new_SchemaPredicates parse_query_only (Some ast_kinded_broken) = Throw.
Proof.
  apply constructor_throws. exists ast_kinded_broken. split; [done|]. right.
  exists {| kind := "UnionTypeDefinition"; type_name := "SearchResult";
            possibleTypes := None |}.
  split_and!; [by left | done | done].
Defined.

Lemma getRootKey_of_constructor_witness :
  ∃ this,
    new_SchemaPredicates parse_query_only (Some todo_app) = Return this
    ∧ getRootKey this OpMutation = Some "Mutation"
    ∧ getRootKey this OpSubscription = None.
Proof.
  eexists. split; [reflexivity|].
  split.
  - match goal with
    | |- getRootKey ?this _ = _ =>
        destruct (getRootKey_of_constructor parse_query_only (Some todo_app)
                    this OpMutation eq_refl) as [_ Hsome]
    end.
    by rewrite (Hsome todo_app eq_refl).
  - match goal with
    | |- getRootKey ?this _ = _ =>
        destruct (getRootKey_of_constructor parse_query_only (Some todo_app)
                    this OpSubscription eq_refl) as [_ Hsome]
    end.
    by rewrite (Hsome todo_app eq_refl).
Defined.

End SchemaLaws.

(* ===================================================================== *)
(** * Further laws of the store *)
(* ===================================================================== *)

Module StoreLaws.
Import StoreModel StoreProps.

(** X12.  [findOrCreate] returns the record that [find] gives afterwards
    for the key; it hands back an existing record and leaves the store as
    it is, and creates an empty record otherwise; the records under other
    keys and the links are not touched, and a second call changes nothing
    more. *)
Theorem findOrCreate_finds this key :
  find (findOrCreate this key).1 key = Some (findOrCreate this key).2
  ∧ (∀ entity, find this key = Some entity →
       findOrCreate this key = (this, entity))
  ∧ (find this key = None → (findOrCreate this key).2 = empty_record)
  ∧ (∀ other, other ≠ key →
       find (findOrCreate this key).1 other = find this other)
  ∧ links (findOrCreate this key).1 = links this
  ∧ findOrCreate (findOrCreate this key).1 key = findOrCreate this key.
Proof.
  unfold findOrCreate.
  destruct (find this key) as [entity|] eqn:Hfind; simpl.
  - rewrite Hfind. split_and!; try done. by intros e [= <-].
  - unfold find in *. simpl. rewrite lookup_insert_eq.
    split_and!; try done. intros other Hne. by rewrite lookup_insert_ne.
Qed.

(** X13.  After [remove(key)], [findOrCreate(key)] starts the record anew:
    it returns an empty record, which is what [find] then gives, whatever
    the removed record held; other records and the links are as before the
    removal. *)
Theorem findOrCreate_after_remove this key :
  (findOrCreate (remove this key) key).2 = empty_record
  ∧ find (findOrCreate (remove this key) key).1 key = Some empty_record
  ∧ (∀ other, other ≠ key →
       find (findOrCreate (remove this key) key).1 other = find this other)
  ∧ links (findOrCreate (remove this key) key).1 = links this.
Proof.
  unfold findOrCreate, find, remove. simpl. rewrite lookup_delete_eq. simpl.
  rewrite lookup_insert_eq. split_and!; try done.
  intros other Hne. by rewrite lookup_insert_ne, lookup_delete_ne.
Qed.

Section Laws.
Context {Variables : Type}.
Variable keyOfEntity : Entity → option string.
Variable keyOfField : string → option Variables → string.
Variable joinKeys : string → string → string.

(** X14.  A link written with [setLink] under the joined key of a parent's
    link field is what [resolveProperty] follows next: a non-empty key
    resolves through [find], an array slot by slot, and [null] or a link
    taken away with [removeLink] gives [null]. *)
Theorem setLink_resolves this (parent : Entity) field args entityKey :
  parent !! keyOfField field args = Some None →
  keyOfEntity parent = Some entityKey →
  (∀ target, target ≠ EmptyString →
     resolveProperty keyOfEntity keyOfField joinKeys
       (setLink this (joinKeys entityKey (keyOfField field args))
          (LKey target)) parent field args
     = found (find this target))
  ∧ (∀ targets,
       resolveProperty keyOfEntity keyOfField joinKeys
         (setLink this (joinKeys entityKey (keyOfField field args))
            (LKeys targets)) parent field args
       = REntities (resolve_slot this <$> targets))
  ∧ resolveProperty keyOfEntity keyOfField joinKeys
      (setLink this (joinKeys entityKey (keyOfField field args)) LNull)
      parent field args = RNull
  ∧ resolveProperty keyOfEntity keyOfField joinKeys
      (removeLink this (joinKeys entityKey (keyOfField field args)))
      parent field args = RNull.
Proof.
  intros Hfield Hkey. unfold resolveProperty, readLink.
  rewrite Hfield, Hkey. simpl. split_and!.
  - intros target Hne. rewrite lookup_insert_eq.
    by rewrite (proj2 (truthy_nonempty target) Hne).
  - intros targets. by rewrite lookup_insert_eq.
  - by rewrite lookup_insert_eq.
  - by rewrite lookup_delete_eq.
Qed.

(** X15.  [setLink] and [removeLink] on any other link key leave the result
    of [resolveProperty] for this parent and field as it was. *)
Theorem resolveProperty_other_links this (parent : Entity) field args
    linkKey link :
  (∀ entityKey, keyOfEntity parent = Some entityKey →
     linkKey ≠ joinKeys entityKey (keyOfField field args)) →
  resolveProperty keyOfEntity keyOfField joinKeys
    (setLink this linkKey link) parent field args
  = resolveProperty keyOfEntity keyOfField joinKeys this parent field args
  ∧ resolveProperty keyOfEntity keyOfField joinKeys
      (removeLink this linkKey) parent field args
    = resolveProperty keyOfEntity keyOfField joinKeys this parent field args.
Proof.
  intros Hother. unfold resolveProperty, readLink.
  destruct (parent !! keyOfField field args) as [[fieldValue|]|]; try done.
  destruct (keyOfEntity parent) as [entityKey|]; [|done].
  specialize (Hother entityKey eq_refl). simpl.
  by rewrite lookup_insert_ne, lookup_delete_ne.
Qed.

(** X16.  On a store that has no record under the empty key,
    [resolveProperty] is the function the specification words: the
    truthiness test on a scalar link then makes no difference. *)
Theorem resolveProperty_as_specified this (parent : Entity) field args :
  find this EmptyString = None →
  resolveProperty keyOfEntity keyOfField joinKeys this parent field args
  = resolveProperty_specified keyOfEntity keyOfField joinKeys
      this parent field args.
Proof.
  intros Hblank. unfold resolveProperty, resolveProperty_specified.
  destruct (parent !! keyOfField field args) as [[fieldValue|]|]; try done.
  destruct (keyOfEntity parent) as [entityKey|]; [|done].
  destruct (readLink this _) as [[|link|links]|]; try done.
  destruct (truthy link) eqn:Htruthy; [done|].
  assert (link = EmptyString) as ->.
  { destruct (decide (link = EmptyString)) as [|Hne]; [done|].
    apply truthy_nonempty in Hne. congruence. }
  by rewrite Hblank.
Qed.

(** X17.  [resolveProperty] hands out nothing of its own making: what it
    returns is [null], or the value stored in the parent under the field
    key, or a record of the store, or an array in which every slot that is
    not [null] is a record of the store. *)
Theorem resolveProperty_from_store this (parent : Entity) field args :
  resolveProperty keyOfEntity keyOfField joinKeys this parent field args
    = RNull
  ∨ (∃ fieldValue,
       parent !! keyOfField field args = Some (Some fieldValue) ∧
       resolveProperty keyOfEntity keyOfField joinKeys this parent field args
       = RField fieldValue)
  ∨ (∃ key entity,
       find this key = Some entity ∧
       resolveProperty keyOfEntity keyOfField joinKeys this parent field args
       = REntity entity)
  ∨ (∃ r,
       resolveProperty keyOfEntity keyOfField joinKeys this parent field args
       = REntities r ∧
       ∀ i entity, r !! i = Some (Some entity) →
         ∃ key, find this key = Some entity).
Proof.
  unfold resolveProperty.
  destruct (parent !! keyOfField field args) as [[fieldValue|]|];
    [right; left; by exists fieldValue | | by left].
  destruct (keyOfEntity parent) as [entityKey|]; [|by left].
  destruct (readLink this _) as [[|link|links]|]; try by left.
  - destruct (truthy link); [|by left].
    destruct (find this link) as [entity|] eqn:Hfind; [|by left].
    right; right; left. by exists link, entity.
  - right; right; right. eexists. split; [done|].
    intros i entity. rewrite list_lookup_fmap.
    destruct (links !! i) as [[key|]|]; simpl; try done.
    intros [= Hfind]. by exists key.
Qed.

(** X18.  [resolveEntity] of an object whose entity key is [key] gives
    [null] once [remove(key)] has run, and after [findOrCreate(key)] gives
    the record that call returned. *)
Theorem resolveEntity_follows_records this (entity : Entity) key :
  keyOfEntity entity = Some key →
  resolveEntity keyOfEntity (remove this key) entity = None
  ∧ resolveEntity keyOfEntity (findOrCreate this key).1 entity
    = Some (findOrCreate this key).2.
Proof.
  intros Hkey. unfold resolveEntity. rewrite Hkey. split.
  - apply lookup_delete_eq.
  - unfold findOrCreate. destruct (find this key) as [e|] eqn:Hfind; simpl.
    + done.
    + unfold find. simpl. by rewrite lookup_insert_eq.
Qed.

End Laws.

Lemma resolveEntity_follows_records_witness :
  resolveEntity keyOfEntity (remove todos "Todo:1") todo = None
  ∧ resolveEntity keyOfEntity (findOrCreate todos "Todo:1").1 todo
    = Some todo.
Proof.
  by apply (resolveEntity_follows_records keyOfEntity todos todo "Todo:1").
Defined.

Lemma findOrCreate_finds_witness :
  findOrCreate todos "Todo:1" = (todos, todo)
  ∧ (findOrCreate todos "Todo:9").2 = empty_record
  ∧ find (findOrCreate todos "Todo:9").1 "Todo:1" = Some todo.
Proof.
  destruct (findOrCreate_finds todos "Todo:1") as (_ & Hold & _).
  destruct (findOrCreate_finds todos "Todo:9") as (_ & _ & Hnew & Hother & _).
  split_and!.
  - by apply Hold.
  - by apply Hnew.
  - by rewrite Hother.
Defined.

Lemma findOrCreate_after_remove_witness :
  find (findOrCreate (remove todos "Todo:1") "Todo:1").1 "Todo:1"
  = Some empty_record
  ∧ find (findOrCreate (remove todos "Todo:1") "Todo:1").1 "User:2"
    = Some (user "2").
Proof.
  destruct (findOrCreate_after_remove todos "Todo:1") as (_ & Hnew & Hother & _).
  split; [exact Hnew | by rewrite Hother].
Defined.

Lemma setLink_resolves_witness :
  resolveProperty keyOfEntity keyOfField joinKeys
    (setLink todos "Todo:1.author" (LKey "User:3")) todo "author" None
  = REntity (user "3")
  ∧ resolveProperty keyOfEntity keyOfField joinKeys
      (removeLink todos "Todo:1.author") todo "author" None
    = RNull.
Proof.
  destruct (setLink_resolves keyOfEntity keyOfField joinKeys
              todos todo "author" None "Todo:1" eq_refl eq_refl)
    as (Hkey & _ & _ & Hremoved).
  split; [by apply (Hkey "User:3") | exact Hremoved].
Defined.

Lemma resolveProperty_other_links_witness :
  resolveProperty keyOfEntity keyOfField joinKeys
    (setLink todos "Todo:1.watchers" LNull) todo "author" None
  = REntity (user "2").
Proof.
  destruct (resolveProperty_other_links keyOfEntity keyOfField joinKeys
              todos todo "author" None "Todo:1.watchers" LNull) as [Hset _].
  - by intros entityKey [= <-].
  - by rewrite Hset.
Defined.

Lemma resolveProperty_as_specified_witness :
  resolveProperty keyOfEntity keyOfField joinKeys
    (setLink todos "Todo:1.author" (LKey EmptyString)) todo "author" None
  = resolveProperty_specified keyOfEntity keyOfField joinKeys
      (setLink todos "Todo:1.author" (LKey EmptyString)) todo "author" None.
Proof. by apply resolveProperty_as_specified. Defined.

Lemma resolveProperty_from_store_witness :
  ∃ r,
    resolveProperty keyOfEntity keyOfField joinKeys todos todo "watchers" None
    = REntities r
    ∧ ∃ key, find todos key = Some (user "3").
Proof.
  destruct (resolveProperty_from_store keyOfEntity keyOfField joinKeys
              todos todo "watchers" None)
    as [Hnull|[(v & _ & Hv)|[(key & e & _ & He)|(r & Hr & Hslots)]]];
    try discriminate.
  exists r. split; [exact Hr|].
  apply (Hslots 2%nat). by injection Hr as <-.
Defined.

End StoreLaws.
